(** * Service descriptors (Framework/ServiceSpec.h) and the TPC raw reader
      (TPCReconstruction/RawReader.h)

    A shallow embedding of the two headers.  C++ callback types are embedded
    by their parameter lists: a parameter passed by non-const reference is
    threaded through the callback (it comes back possibly changed), a
    parameter passed by const reference or by value is only an input.  The
    containers of the reader ([std::map] with its iterators, [shared_ptr])
    are embedded as sorted association lists with positions, and as optional
    addresses into a heap of vectors. *)

From Stdlib Require Import ZArith Lia.
From stdpp Require Import base option list sorting gmap strings.

Open Scope Z_scope.

(** Addresses of heap-allocated objects; a pointer is an optional address,
    [None] being [nullptr]. *)
Abbreviation loc := positive.
Abbreviation pointer := (option loc).

Module Framework.

(** ** Types the header only names

    [ServiceSpec.h] forward-declares or includes the types below; their
    definitions live in other headers.  They are kept abstract. *)
Record Externals := {
  ServiceRegistry : Type;
  DeviceState : Type;
  ProgOptions : Type;          (* fair::mq::ProgOptions *)
  variables_map : Type;        (* boost::program_options::variables_map *)
  InitContext : Type;
  ProcessingContext : Type;
  DanglingContext : Type;
  EndOfStreamContext : Type;
  ConfigContext : Type;
  WorkflowSpecNode : Type;
  DeviceMetricsInfo : Type;
  DeviceSpec : Type;
  DeviceInfo : Type;
  ServiceHandle : Type;
  Service : Type               (* what a type-erased [void*] service points to *)
}.

(** Modelled from the spec: [ServiceKind] is declared in
    [Framework/ServiceHandle.h]; the header here only uses
    [ServiceKind::Serial].  The spec names the three scopes. *)
Inductive ServiceKind := Serial | Global | Stream.

#[global] Instance ServiceKind_eq_dec : EqDecision ServiceKind.
Proof. solve_decision. Defined.

(** ** Parameter lists of the callback types *)

Inductive CxxType :=
| TServiceRegistry | TDeviceState | TProgOptions | TVariablesMap
| TInitContext | TProcessingContext | TDanglingContext | TEndOfStreamContext
| TConfigContext | TWorkflowSpecNode
| TDeviceMetricsInfo
| TVecDeviceMetricsInfo | TVecDeviceSpec | TVecDeviceInfo
| TSize | TVoidPtr.

Inductive Passing := ByValue | ByConstRef | ByRef.

Inductive CxxRet := RVoid | RServiceHandle | RVoidPtr.

#[global] Instance CxxType_eq_dec : EqDecision CxxType.
Proof. solve_decision. Defined.
#[global] Instance Passing_eq_dec : EqDecision Passing.
Proof. solve_decision. Defined.

Definition Param : Type := CxxType * Passing.

Record Signature := { params : list Param; ret : CxxRet }.

(** [std::function<ServiceHandle(ServiceRegistry&, DeviceState&, fair::mq::ProgOptions&)>] *)
Definition sig_ServiceInit : Signature :=
  {| params := [(TServiceRegistry, ByRef); (TDeviceState, ByRef); (TProgOptions, ByRef)];
     ret := RServiceHandle |}.
(** [std::function<void(ServiceRegistry&, void* )>] *)
Definition sig_ServiceStartCallback : Signature :=
  {| params := [(TServiceRegistry, ByRef); (TVoidPtr, ByValue)]; ret := RVoid |}.
Definition sig_ServiceStopCallback : Signature :=
  {| params := [(TServiceRegistry, ByRef); (TVoidPtr, ByValue)]; ret := RVoid |}.
Definition sig_ServiceExitCallback : Signature :=
  {| params := [(TServiceRegistry, ByRef); (TVoidPtr, ByValue)]; ret := RVoid |}.
(** [std::function<void*(InitContext&, void* )>] *)
Definition sig_ServiceConfigureCallback : Signature :=
  {| params := [(TInitContext, ByRef); (TVoidPtr, ByValue)]; ret := RVoidPtr |}.
(** [std::function<void(ProcessingContext&, void* )>] *)
Definition sig_ServiceProcessingCallback : Signature :=
  {| params := [(TProcessingContext, ByRef); (TVoidPtr, ByValue)]; ret := RVoid |}.
(** [std::function<void(DanglingContext&, void* )>] *)
Definition sig_ServiceDanglingCallback : Signature :=
  {| params := [(TDanglingContext, ByRef); (TVoidPtr, ByValue)]; ret := RVoid |}.
(** [std::function<void(EndOfStreamContext&, void* )>] *)
Definition sig_ServiceEOSCallback : Signature :=
  {| params := [(TEndOfStreamContext, ByRef); (TVoidPtr, ByValue)]; ret := RVoid |}.
(** [std::function<void(ServiceRegistry&, boost::program_options::variables_map const&)>] *)
Definition sig_ServicePreFork : Signature :=
  {| params := [(TServiceRegistry, ByRef); (TVariablesMap, ByConstRef)]; ret := RVoid |}.
(** [std::function<void(ServiceRegistry&)>] *)
Definition sig_ServicePostForkChild : Signature :=
  {| params := [(TServiceRegistry, ByRef)]; ret := RVoid |}.
Definition sig_ServicePostForkParent : Signature :=
  {| params := [(TServiceRegistry, ByRef)]; ret := RVoid |}.
Definition sig_ServicePreSchedule : Signature :=
  {| params := [(TServiceRegistry, ByRef); (TVariablesMap, ByConstRef)]; ret := RVoid |}.
Definition sig_ServicePostSchedule : Signature :=
  {| params := [(TServiceRegistry, ByRef); (TVariablesMap, ByConstRef)]; ret := RVoid |}.
(** [std::function<void(ServiceRegistry&, std::vector<DeviceMetricsInfo>& metrics,
      std::vector<DeviceSpec>& specs, std::vector<DeviceInfo>& infos,
      DeviceMetricsInfo& driverMetrics, size_t timestamp)>] *)
Definition sig_ServiceMetricHandling : Signature :=
  {| params := [(TServiceRegistry, ByRef); (TVecDeviceMetricsInfo, ByRef);
                (TVecDeviceSpec, ByRef); (TVecDeviceInfo, ByRef);
                (TDeviceMetricsInfo, ByRef); (TSize, ByValue)];
     ret := RVoid |}.
(** [std::function<void(ProcessingContext&, void* )>] *)
Definition sig_ServicePostDispatching : Signature :=
  {| params := [(TProcessingContext, ByRef); (TVoidPtr, ByValue)]; ret := RVoid |}.
(** [std::function<void(ServiceRegistry&, boost::program_options::variables_map const&)>] *)
Definition sig_ServiceDriverInit : Signature :=
  {| params := [(TServiceRegistry, ByRef); (TVariablesMap, ByConstRef)]; ret := RVoid |}.
Definition sig_ServiceDriverStartup : Signature :=
  {| params := [(TServiceRegistry, ByRef); (TVariablesMap, ByConstRef)]; ret := RVoid |}.
(** [std::function<void(WorkflowSpecNode&, ConfigContext&)>] *)
Definition sig_ServiceTopologyInject : Signature :=
  {| params := [(TWorkflowSpecNode, ByRef); (TConfigContext, ByRef)]; ret := RVoid |}.
(** [std::function<void(WorkflowSpecNode&, ConfigContext const&)>] *)
Definition sig_ServiceTopologyAdjust : Signature :=
  {| params := [(TWorkflowSpecNode, ByRef); (TConfigContext, ByConstRef)]; ret := RVoid |}.

(** How a parameter of type [t] is passed in signature [s], if it occurs. *)
Definition passing_of (s : Signature) (t : CxxType) : option Passing :=
  (λ ip, ip.2.2) <$> list_find (λ p, p.1 = t) (params s).

Section Semantics.
Context (E : Externals).

(** The memory holding the type-erased service instances that the
    [void*] arguments point into. *)
Definition Heap : Type := gmap loc (Service E).

Definition den (t : CxxType) : Type :=
  match t with
  | TServiceRegistry => ServiceRegistry E
  | TDeviceState => DeviceState E
  | TProgOptions => ProgOptions E
  | TVariablesMap => variables_map E
  | TInitContext => InitContext E
  | TProcessingContext => ProcessingContext E
  | TDanglingContext => DanglingContext E
  | TEndOfStreamContext => EndOfStreamContext E
  | TConfigContext => ConfigContext E
  | TWorkflowSpecNode => WorkflowSpecNode E
  | TDeviceMetricsInfo => DeviceMetricsInfo E
  | TVecDeviceMetricsInfo => list (DeviceMetricsInfo E)
  | TVecDeviceSpec => list (DeviceSpec E)
  | TVecDeviceInfo => list (DeviceInfo E)
  | TSize => N
  | TVoidPtr => pointer
  end.

Definition den_ret (r : CxxRet) : Type :=
  match r with
  | RVoid => unit
  | RServiceHandle => ServiceHandle E
  | RVoidPtr => pointer
  end.

(** The actual arguments of a call, one per parameter. *)
Fixpoint args (ps : list Param) : Type :=
  match ps with
  | [] => unit
  | p :: ps' => den p.1 * args ps'
  end.

(** What a call can hand back to its caller through its parameters: a new
    value for every parameter passed by non-const reference. *)
Fixpoint outs (ps : list Param) : Type :=
  match ps with
  | [] => unit
  | p :: ps' =>
      match p.2 with
      | ByRef => den p.1 * outs ps'
      | _ => outs ps'
      end
  end.

Fixpoint writeback (ps : list Param) : args ps → outs ps → args ps :=
  match ps with
  | [] => λ _ _, tt
  | p :: ps' =>
      match p.2 as m
        return (den p.1 * args ps' →
                match m with ByRef => den p.1 * outs ps' | _ => outs ps' end →
                den p.1 * args ps')
      with
      | ByRef => λ a o, (o.1, writeback ps' a.2 o.2)
      | ByValue => λ a o, (a.1, writeback ps' a.2 o)
      | ByConstRef => λ a o, (a.1, writeback ps' a.2 o)
      end
  end.

(** A [std::function] of signature [s] that holds a target. *)
Definition std_function (s : Signature) : Type :=
  args (params s) → Heap → den_ret (ret s) * outs (params s) * Heap.

(** Calling it: the caller's objects after the call. *)
Definition invoke {s : Signature} (cb : std_function s)
    (a : args (params s)) (h : Heap) : den_ret (ret s) * args (params s) * Heap :=
  let '(r, o, h') := cb a h in (r, writeback (params s) a o, h').

(** The [i]-th actual argument, with its type. *)
Fixpoint arg_at (ps : list Param) (i : nat) : args ps → option { t : CxxType & den t } :=
  match ps with
  | [] => λ _, None
  | p :: ps' => λ a,
      match i with
      | O => Some (existT p.1 a.1)
      | S j => arg_at ps' j a.2
      end
  end.

(** ** The descriptor *)

Definition ServiceInit := std_function sig_ServiceInit.
Definition ServiceStartCallback := std_function sig_ServiceStartCallback.
Definition ServiceStopCallback := std_function sig_ServiceStopCallback.
Definition ServiceExitCallback := std_function sig_ServiceExitCallback.
Definition ServiceConfigureCallback := std_function sig_ServiceConfigureCallback.
Definition ServiceProcessingCallback := std_function sig_ServiceProcessingCallback.
Definition ServiceDanglingCallback := std_function sig_ServiceDanglingCallback.
Definition ServiceEOSCallback := std_function sig_ServiceEOSCallback.
Definition ServicePreFork := std_function sig_ServicePreFork.
Definition ServicePostForkChild := std_function sig_ServicePostForkChild.
Definition ServicePostForkParent := std_function sig_ServicePostForkParent.
Definition ServicePreSchedule := std_function sig_ServicePreSchedule.
Definition ServicePostSchedule := std_function sig_ServicePostSchedule.
Definition ServiceMetricHandling := std_function sig_ServiceMetricHandling.
Definition ServicePostDispatching := std_function sig_ServicePostDispatching.
Definition ServiceDriverInit := std_function sig_ServiceDriverInit.
Definition ServiceDriverStartup := std_function sig_ServiceDriverStartup.
Definition ServiceTopologyInject := std_function sig_ServiceTopologyInject.
Definition ServiceTopologyAdjust := std_function sig_ServiceTopologyAdjust.

(** [struct ServiceSpec], fields in declaration order.  A [std::function]
    member is [None] when it holds no target ([= nullptr]). *)
Record ServiceSpec := {
  name : string;
  init : option ServiceInit;
  configure : option ServiceConfigureCallback;
  preProcessing : option ServiceProcessingCallback;
  postProcessing : option ServiceProcessingCallback;
  preDangling : option ServiceDanglingCallback;
  postDangling : option ServiceDanglingCallback;
  preEOS : option ServiceEOSCallback;
  postEOS : option ServiceEOSCallback;
  preFork : option ServicePreFork;
  postForkChild : option ServicePostForkChild;
  postForkParent : option ServicePostForkParent;
  preSchedule : option ServicePreSchedule;
  postSchedule : option ServicePostSchedule;
  metricHandling : option ServiceMetricHandling;
  postDispatching : option ServicePostDispatching;
  start : option ServiceStartCallback;
  stop : option ServiceStopCallback;
  exit : option ServiceExitCallback;
  driverInit : option ServiceDriverInit;
  driverStartup : option ServiceDriverStartup;
  injectTopology : option ServiceTopologyInject;
  adjustTopology : option ServiceTopologyAdjust;
  kind : ServiceKind
}.

(** The default member initialisers: what [ServiceSpec{}] holds. *)
Definition ServiceSpec_default : ServiceSpec := {|
  name := "please specify name";
  init := None;
  configure := None;
  preProcessing := None;
  postProcessing := None;
  preDangling := None;
  postDangling := None;
  preEOS := None;
  postEOS := None;
  preFork := None;
  postForkChild := None;
  postForkParent := None;
  preSchedule := None;
  postSchedule := None;
  metricHandling := None;
  postDispatching := None;
  start := None;
  stop := None;
  exit := None;
  driverInit := None;
  driverStartup := None;
  injectTopology := None;
  adjustTopology := None;
  kind := Serial
|}.

End Semantics.

Arguments name {E} _.
Arguments kind {E} _.

(** The [std::function] members of [ServiceSpec], one constructor per member,
    in declaration order. *)
Inductive Slot :=
| Sinit | Sconfigure | SpreProcessing | SpostProcessing | SpreDangling
| SpostDangling | SpreEOS | SpostEOS | SpreFork | SpostForkChild
| SpostForkParent | SpreSchedule | SpostSchedule | SmetricHandling
| SpostDispatching | Sstart | Sstop | Sexit | SdriverInit | SdriverStartup
| SinjectTopology | SadjustTopology.

#[global] Instance Slot_eq_dec : EqDecision Slot.
Proof. solve_decision. Defined.

Definition all_slots : list Slot :=
  [Sinit; Sconfigure; SpreProcessing; SpostProcessing; SpreDangling;
   SpostDangling; SpreEOS; SpostEOS; SpreFork; SpostForkChild;
   SpostForkParent; SpreSchedule; SpostSchedule; SmetricHandling;
   SpostDispatching; Sstart; Sstop; Sexit; SdriverInit; SdriverStartup;
   SinjectTopology; SadjustTopology].

(** The member's name in the header. *)
Definition slot_name (s : Slot) : string :=
  match s with
  | Sinit => "init" | Sconfigure => "configure"
  | SpreProcessing => "preProcessing" | SpostProcessing => "postProcessing"
  | SpreDangling => "preDangling" | SpostDangling => "postDangling"
  | SpreEOS => "preEOS" | SpostEOS => "postEOS"
  | SpreFork => "preFork" | SpostForkChild => "postForkChild"
  | SpostForkParent => "postForkParent"
  | SpreSchedule => "preSchedule" | SpostSchedule => "postSchedule"
  | SmetricHandling => "metricHandling"
  | SpostDispatching => "postDispatching"
  | Sstart => "start" | Sstop => "stop" | Sexit => "exit"
  | SdriverInit => "driverInit" | SdriverStartup => "driverStartup"
  | SinjectTopology => "injectTopology" | SadjustTopology => "adjustTopology"
  end.

(** The member's declared type. *)
Definition slot_signature (s : Slot) : Signature :=
  match s with
  | Sinit => sig_ServiceInit
  | Sconfigure => sig_ServiceConfigureCallback
  | SpreProcessing | SpostProcessing => sig_ServiceProcessingCallback
  | SpreDangling | SpostDangling => sig_ServiceDanglingCallback
  | SpreEOS | SpostEOS => sig_ServiceEOSCallback
  | SpreFork => sig_ServicePreFork
  | SpostForkChild => sig_ServicePostForkChild
  | SpostForkParent => sig_ServicePostForkParent
  | SpreSchedule => sig_ServicePreSchedule
  | SpostSchedule => sig_ServicePostSchedule
  | SmetricHandling => sig_ServiceMetricHandling
  | SpostDispatching => sig_ServicePostDispatching
  | Sstart => sig_ServiceStartCallback
  | Sstop => sig_ServiceStopCallback
  | Sexit => sig_ServiceExitCallback
  | SdriverInit => sig_ServiceDriverInit
  | SdriverStartup => sig_ServiceDriverStartup
  | SinjectTopology => sig_ServiceTopologyInject
  | SadjustTopology => sig_ServiceTopologyAdjust
  end.

(** Reading a member of a descriptor. *)
Definition slot {E} (d : ServiceSpec E) (s : Slot) : option (std_function E (slot_signature s)) :=
  match s with
  | Sinit => init E d | Sconfigure => configure E d
  | SpreProcessing => preProcessing E d | SpostProcessing => postProcessing E d
  | SpreDangling => preDangling E d | SpostDangling => postDangling E d
  | SpreEOS => preEOS E d | SpostEOS => postEOS E d
  | SpreFork => preFork E d | SpostForkChild => postForkChild E d
  | SpostForkParent => postForkParent E d
  | SpreSchedule => preSchedule E d | SpostSchedule => postSchedule E d
  | SmetricHandling => metricHandling E d
  | SpostDispatching => postDispatching E d
  | Sstart => start E d | Sstop => stop E d | Sexit => exit E d
  | SdriverInit => driverInit E d | SdriverStartup => driverStartup E d
  | SinjectTopology => injectTopology E d | SadjustTopology => adjustTopology E d
  end.

(** The slots as the specification lists them. *)
Definition spec_slot_names : list string :=
  ["init"; "configure"; "preProcessing"; "postProcessing"; "preDangling";
   "postDangling"; "preEOS"; "postEOS"; "preFork"; "postForkChild";
   "postForkParent"; "preSchedule"; "postSchedule"; "metricHandling";
   "postDispatching"; "start"; "stop"; "exit"; "driverInit"; "driverStartup";
   "injectTopology"; "adjustTopology"].

Section Runtime.
Context {E : Externals}.

(** ** Handles

    The eight handle structs of the header share one shape,
    [{ ServiceSpec const& spec; <callback type> callback; void* service; }],
    and their callback types share the shape [(Context&, void* )].  The
    reference to the descriptor is an address into the store of descriptors;
    how the member is declared is recorded in [spec_member] below. *)
Record Handle (c : CxxType) (r : CxxRet) := {
  spec : loc;
  callback : std_function E {| params := [(c, ByRef); (TVoidPtr, ByValue)]; ret := r |};
  service : pointer
}.
Arguments spec {c r} _.
Arguments callback {c r} _.
Arguments service {c r} _.

Definition ServiceConfigureHandle := Handle TInitContext RVoidPtr.
Definition ServiceProcessingHandle := Handle TProcessingContext RVoid.
Definition ServiceDanglingHandle := Handle TDanglingContext RVoid.
Definition ServiceEOSHandle := Handle TEndOfStreamContext RVoid.
Definition ServiceDispatchingHandle := Handle TProcessingContext RVoid.
Definition ServiceStartHandle := Handle TServiceRegistry RVoid.
Definition ServiceStopHandle := Handle TServiceRegistry RVoid.
Definition ServiceExitHandle := Handle TServiceRegistry RVoid.

(** The objects a handle refers to: the descriptors, and the service
    instances behind the [void*]. *)
Record Memory := {
  descriptors : gmap loc (ServiceSpec E);
  instances : Heap E
}.

(** The eight handle structs, in the order of the header. *)
Inductive HandleStruct :=
| ConfigureHandle | ProcessingHandle | DanglingHandle | EOSHandle
| DispatchingHandle | StartHandle | StopHandle | ExitHandle.

(** How each struct declares its [spec] member: [ServiceSpec const& spec;]. *)
Definition spec_member (k : HandleStruct) : Passing :=
  match k with
  | ConfigureHandle => ByConstRef
  | ProcessingHandle => ByConstRef
  | DanglingHandle => ByConstRef
  | EOSHandle => ByConstRef
  | DispatchingHandle => ByConstRef
  | StartHandle => ByConstRef
  | StopHandle => ByConstRef
  | ExitHandle => ByConstRef
  end.

(** The context and the result of each struct's [callback] member. *)
Definition handle_shape (k : HandleStruct) : CxxType * CxxRet :=
  match k with
  | ConfigureHandle => (TInitContext, RVoidPtr)
  | ProcessingHandle => (TProcessingContext, RVoid)
  | DanglingHandle => (TDanglingContext, RVoid)
  | EOSHandle => (TEndOfStreamContext, RVoid)
  | DispatchingHandle => (TProcessingContext, RVoid)
  | StartHandle => (TServiceRegistry, RVoid)
  | StopHandle => (TServiceRegistry, RVoid)
  | ExitHandle => (TServiceRegistry, RVoid)
  end.

Definition HandleOf (k : HandleStruct) : Type :=
  Handle (handle_shape k).1 (handle_shape k).2.

(** What code holding a [T] with passing [q] can hand back for the object
    behind it: a changed object through a reference to non-const, nothing
    otherwise. *)
Definition through (q : Passing) (T : Type) : Type :=
  match q with
  | ByRef => T
  | ByValue => unit
  | ByConstRef => unit
  end.

(** The object afterwards. *)
Definition store_back (q : Passing) {T : Type} (old : T) : through q T → T :=
  match q with
  | ByRef => λ new, new
  | ByValue => λ _, old
  | ByConstRef => λ _, old
  end.

(** Handing back nothing new. *)
Definition untouched (q : Passing) {T : Type} (old : T) : through q T :=
  match q with
  | ByRef => old
  | ByValue => tt
  | ByConstRef => tt
  end.

(** Modelled from the spec: the code that works with the handles (the
    Lifecycle Invoker of section 4.2, which fires the callbacks of the
    registered services) is not part of the header, which only declares the
    structs.  A framework operation performed through a handle is any code
    that is given what the members of the handle give access to -- the
    descriptor behind [spec], the [callback], the [service] pointer -- with
    a context and the service instances.  It hands back a result, the
    context and the instances and, for the descriptor, what a member
    declared with passing [q] permits. *)
Definition HandleOperation (q : Passing) (c : CxxType) (r : CxxRet) : Type :=
  ServiceSpec E →
  std_function E {| params := [(c, ByRef); (TVoidPtr, ByValue)]; ret := r |} →
  pointer → den E c → Heap E →
  den_ret E r * through q (ServiceSpec E) * den E c * Heap E.

(** Modelled from the spec: performing such an operation through handle
    [hd], whose [spec] member is declared with passing [q].  A handle whose
    reference is dangling gives no result. *)
Definition perform {q : Passing} {c : CxxType} {r : CxxRet}
    (op : HandleOperation q c r) (hd : Handle c r) (ctx : den E c) (m : Memory)
    : option (den_ret E r * den E c * Memory) :=
  d ← descriptors m !! spec hd;
  let '(res, d', ctx', hp) := op d (callback hd) (service hd) ctx (instances m) in
  Some (res, ctx',
        {| descriptors := <[spec hd := store_back q d d']> (descriptors m);
           instances := hp |}).

(** Modelled from the spec: the operation the handles are made for,
    [hd.callback(context, hd.service)]. *)
Definition fire (q : Passing) {c : CxxType} {r : CxxRet} : HandleOperation q c r :=
  λ d cb service ctx hp,
    let '(res, a, hp') := invoke E cb (ctx, (service, tt)) hp in
    (res, untouched q d, a.1, hp').

(** Operations through a handle with such a [spec] member leave every
    descriptor as it was. *)
Definition descriptors_kept (q : Passing) (c : CxxType) (r : CxxRet) : Prop :=
  ∀ (op : HandleOperation q c r) (hd : Handle c r) (ctx : den E c) (m : Memory)
    res ctx' m',
    perform op hd ctx m = Some (res, ctx', m') →
    descriptors m' = descriptors m.

(** ** Registry

    Modelled from the spec: the Service Registry and its [register] are not
    part of the header ([ServiceRegistry] is only forward-declared, and stays
    abstract where callbacks receive it).  Section 3: a mapping from
    [(name, kind)], insertion order preserved; section 4.1: [register] fails
    if [(name, kind)] is already present. *)
Definition Registry : Type := list (ServiceSpec E).

Definition key (d : ServiceSpec E) : string * ServiceKind := (name d, kind d).

Inductive RegistrationError := DuplicateKey (k : string * ServiceKind).

Definition present (k : string * ServiceKind) (reg : Registry) : bool :=
  bool_decide (k ∈ key <$> reg).

Definition register (d : ServiceSpec E) (reg : Registry)
    : (RegistrationError + unit) * Registry :=
  if present (key d) reg then (inl (DuplicateKey (key d)), reg)
  else (inr tt, reg ++ [d]).

(** The snapshot part of the arguments of a [metricHandling] call. *)
Definition snapshot (a : args E (params sig_ServiceMetricHandling))
    : list (DeviceMetricsInfo E) * list (DeviceSpec E) * list (DeviceInfo E) :=
  (a.2.1, a.2.2.1, a.2.2.2.1).

Definition timestamp_of (a : args E (params sig_ServiceMetricHandling)) : N :=
  a.2.2.2.2.2.1.

(** ** The statements examined below *)

(** A [metricHandling] target that hands back the metrics, specs and infos
    it received. *)
Definition preserves_snapshot (cb : ServiceMetricHandling E) : Prop :=
  ∀ a h, snapshot (invoke E cb a h).1.2 = snapshot a.

(** The metrics, specs and infos that a [metricHandling] target hands
    back. *)
Definition handed_back (o : outs E (params sig_ServiceMetricHandling))
    : list (DeviceMetricsInfo E) * list (DeviceSpec E) * list (DeviceInfo E) :=
  (o.2.1, o.2.2.1, o.2.2.2.1).

(** No [metricHandling] target changes the metrics, specs and infos it is
    invoked with. *)
Definition snapshot_read_only : Prop :=
  ∀ cb : ServiceMetricHandling E, preserves_snapshot cb.

(** The two types that carry parsed options. *)
Definition is_options (t : CxxType) : Prop := t = TProgOptions ∨ t = TVariablesMap.

Definition options_slots : list Slot :=
  [Sinit; Sconfigure; SpreFork; SpostForkChild; SpostForkParent;
   SpreSchedule; SpostSchedule].

(** Each of [options_slots] takes the options by reference, and a call
    leaves every options argument as it was. *)
Definition options_read_only : Prop :=
  ∀ s, s ∈ options_slots →
    (∃ i p, params (slot_signature s) !! i = Some p ∧ is_options p.1 ∧ p.2 ≠ ByValue) ∧
    (∀ (cb : std_function E (slot_signature s)) a h i p,
       params (slot_signature s) !! i = Some p → is_options p.1 →
       arg_at E (params (slot_signature s)) i (invoke E cb a h).1.2
       = arg_at E (params (slot_signature s)) i a).

(** An [adjustTopology] call leaves the graph with the nodes it had. *)
Definition adjust_keeps_nodes {Node : Type} (nodes : WorkflowSpecNode E → list Node) : Prop :=
  ∀ (cb : ServiceTopologyAdjust E) a h n,
    n ∈ nodes (invoke E cb a h).1.2.1 ↔ n ∈ nodes a.1.

(** An [adjustTopology] target that hands back the graph it received. *)
Definition preserves_graph (cb : ServiceTopologyAdjust E) : Prop :=
  ∀ a h, (invoke E cb a h).1.2.1 = a.1.

End Runtime.

Arguments Handle : clear implicits.
Arguments spec {E c r} _.
Arguments callback {E c r} _.
Arguments service {E c r} _.
Arguments Memory : clear implicits.
Arguments HandleOf : clear implicits.
Arguments HandleOperation : clear implicits.
Arguments descriptors_kept : clear implicits.
Arguments Registry : clear implicits.
Arguments snapshot_read_only : clear implicits.
Arguments options_read_only : clear implicits.

End Framework.

Module TPC.

(** ** Machine integers *)

Definition int64_min : Z := - 2 ^ 63.
Definition int64_max : Z := 2 ^ 63 - 1.

(** [a + b] on [int64_t]; signed overflow has no defined result. *)
Definition int64_add (a b : Z) : option Z :=
  if decide (int64_min ≤ a + b ≤ int64_max) then Some (a + b) else None.

(** ** [std::map]

    The entries of a map in the order an in-order traversal visits them,
    which is ascending key order.  An iterator is a position in that
    sequence; [end()] is the position after the last entry.  Dereferencing a
    position that holds no entry has no defined result ([None]). *)
Section StdMap.
Context {K V : Type} (less : K → K → bool).

Definition stdmap : Type := list (K * V).
Definition iterator : Type := nat.

Definition map_begin (m : stdmap) : iterator := 0%nat.
Definition map_end (m : stdmap) : iterator := length m.
Definition map_size (m : stdmap) : nat := length m.
Definition deref (m : stdmap) (it : iterator) : option (K * V) := m !! it.
(** [*m.rbegin()]: the entry before [end()]. *)
Definition deref_rbegin (m : stdmap) : option (K * V) := last m.

(** Keys are compared with the ordering only: [a] and [b] are the same key
    when neither is less than the other. *)
Definition equivalent (a b : K) : bool := negb (less a b) && negb (less b a).

(** [m.find(k)]: the position of the entry whose key is equivalent to [k],
    [end()] if there is none. *)
Definition map_find (m : stdmap) (k : K) : iterator :=
  match list_find (λ e, equivalent e.1 k = true) m with
  | Some (i, _) => i
  | None => map_end m
  end.

(** What [std::map] maintains: keys strictly ascending. *)
Definition map_ok (m : stdmap) : Prop :=
  StronglySorted (λ a b, less a.1 b.1 = true) m.

End StdMap.

(** ** Data of the reader *)

(** [struct Header] *)
Record Header := {
  dataType : Z;
  reserved_01 : Z;
  headerVersion : Z;
  nWords : Z;
  timeStamp_w : Z;
  eventCount_w : Z;
  reserved_2_w : Z
}.

(** [struct eventData] *)
Record eventData := {
  path : string;
  posInFile : Z;
  region : Z;
  link : Z;
  headerInfo : Header
}.

(** The vectors of ADC values that the [shared_ptr]s point to. *)
Abbreviation VecHeap := (gmap loc (list Z)).

Section Reader.
(** [PadPos] and its ordering come from [TPCBase/PadPos.h]. *)
Context {PadPos : Type} (PadPos_less : PadPos → PadPos → bool).

(** The private members of [class RawReader]. *)
Record RawReader := {
  mLastEvent : Z;
  mTimestampOfFirstData : Z;
  mEvents : list (Z * list eventData);
  mData : list (PadPos * pointer);
  mDataIterator : nat;
  mSyncPos : list Z
}.

Definition set_mDataIterator (it : nat) (r : RawReader) : RawReader :=
  {| mLastEvent := mLastEvent r;
     mTimestampOfFirstData := mTimestampOfFirstData r;
     mEvents := mEvents r;
     mData := mData r;
     mDataIterator := it;
     mSyncPos := mSyncPos r |}.

(** [uint64_t getFirstEvent() const { return mEvents.begin()->first; }] *)
Definition getFirstEvent (r : RawReader) : option Z :=
  fst <$> deref (mEvents r) (map_begin (mEvents r)).

(** [uint64_t getLastEvent() const
      { return (mEvents.size() == 0) ? mEvents.begin()->first : mEvents.rbegin()->first; }] *)
Definition getLastEvent (r : RawReader) : option Z :=
  if decide (map_size (mEvents r) = 0%nat)
  then fst <$> deref (mEvents r) (map_begin (mEvents r))
  else fst <$> deref_rbegin (mEvents r).

(** [uint64_t getTimeStamp() const { return mTimestampOfFirstData; }] *)
Definition getTimeStamp (r : RawReader) : Z := mTimestampOfFirstData r.

(** [getData(const PadPos& padPos)]: the returned pointer, the reader and
    the heap after the call. *)
Definition getData (padPos : PadPos) (r : RawReader) (h : VecHeap)
    : option (pointer * RawReader * VecHeap) :=
  let it := map_find PadPos_less (mData r) padPos in
  let r' := set_mDataIterator it r in
  if decide (it = map_end (mData r)) then
    let emptyVecPtr := fresh (dom h) in
    Some (Some emptyVecPtr, r', <[emptyVecPtr := []]> h)
  else
    e ← deref (mData r) it;
    Some (e.2, r', h).

(** [getNextData(PadPos& padPos)]: the returned pointer, [padPos] and the
    reader after the call. *)
Definition getNextData (padPos : PadPos) (r : RawReader)
    : option (pointer * PadPos * RawReader) :=
  if decide (mDataIterator r = map_end (mData r)) then Some (None, padPos, r)
  else
    let last := mDataIterator r in
    let r' := set_mDataIterator (S (mDataIterator r)) r in
    e ← deref (mData r) last;
    Some (e.2, e.1, r').

(** [bool loadEvent(int64_t event)] is defined in [RawReader.cxx]. *)
Context (loadEvent : Z → RawReader → VecHeap → bool * RawReader * VecHeap).

(** [bool loadNextEvent() { return loadEvent(mLastEvent+1); }] *)
Definition loadNextEvent (r : RawReader) (h : VecHeap)
    : option (bool * RawReader * VecHeap) :=
  event ← int64_add (mLastEvent r) 1;
  Some (loadEvent event r h).

(** ** Call histories *)

Inductive Call :=
| CallLoadNextEvent
| CallLoadEvent (event : Z)
| CallGetFirstEvent
| CallGetLastEvent
| CallGetTimeStamp
| CallGetData (padPos : PadPos)
| CallGetNextData (padPos : PadPos).

(** What a call gives back to its caller. *)
Inductive Result :=
| RBool (b : bool)
| RNumber (n : Z)
| RData (p : pointer) (v : option (list Z))
| RNextData (p : pointer) (v : option (list Z)) (padPos : PadPos).

(** The vector behind a pointer. *)
Definition pointee (h : VecHeap) (p : pointer) : option (list Z) :=
  l ← p; h !! l.

Definition call (c : Call) (r : RawReader) (h : VecHeap)
    : option (Result * RawReader * VecHeap) :=
  match c with
  | CallLoadNextEvent =>
      '(b, r', h') ← loadNextEvent r h; Some (RBool b, r', h')
  | CallLoadEvent event =>
      let '(b, r', h') := loadEvent event r h in Some (RBool b, r', h')
  | CallGetFirstEvent => n ← getFirstEvent r; Some (RNumber n, r, h)
  | CallGetLastEvent => n ← getLastEvent r; Some (RNumber n, r, h)
  | CallGetTimeStamp => Some (RNumber (getTimeStamp r), r, h)
  | CallGetData padPos =>
      '(p, r', h') ← getData padPos r h; Some (RData p (pointee h' p), r', h')
  | CallGetNextData padPos =>
      '(p, padPos', r') ← getNextData padPos r;
      Some (RNextData p (pointee h p) padPos', r', h)
  end.

Fixpoint calls (cs : list Call) (r : RawReader) (h : VecHeap)
    : option (RawReader * VecHeap) :=
  match cs with
  | [] => Some (r, h)
  | c :: cs' => '(_, r', h') ← call c r h; calls cs' r' h'
  end.

(** No outcome depends on what earlier calls left in the reader: after any
    two histories on the same reader, the same call gives the same result. *)
Definition stateless : Prop :=
  ∀ (r : RawReader) (h : VecHeap) (hist1 hist2 : list Call) (c : Call)
    r1 h1 r2 h2,
    calls hist1 r h = Some (r1, h1) →
    calls hist2 r h = Some (r2, h2) →
    (λ x, x.1.1) <$> call c r1 h1 = (λ x, x.1.1) <$> call c r2 h2.

(** The members a call reads: two readers that agree on them are the same
    to that call.  [loadEvent] may read any member. *)
Definition agree_on_read (c : Call) (r1 r2 : RawReader) : Prop :=
  match c with
  | CallLoadNextEvent | CallLoadEvent _ => r1 = r2
  | CallGetFirstEvent | CallGetLastEvent => mEvents r1 = mEvents r2
  | CallGetTimeStamp => mTimestampOfFirstData r1 = mTimestampOfFirstData r2
  | CallGetData _ => mData r1 = mData r2
  | CallGetNextData _ => mData r1 = mData r2 ∧ mDataIterator r1 = mDataIterator r2
  end.

End Reader.

Arguments RawReader : clear implicits.
Arguments Call : clear implicits.
Arguments Result : clear implicits.

(** ** Accessors of the header *)

Definition uint64_modulus : Z := 2 ^ 64.

(** [w << n] on [uint64_t]: the bits moved past bit 63 are lost. *)
Definition uint64_shiftl (w n : Z) : Z := Z.shiftl w n mod uint64_modulus.

(** [w >> n] on [uint64_t]. *)
Definition uint64_shiftr (w n : Z) : Z := Z.shiftr w n.

(** [uint64_t timeStamp() { return (timeStamp_w << 32) | (timeStamp_w >> 32);}] *)
Definition timeStamp (hd : Header) : Z :=
  Z.lor (uint64_shiftl (timeStamp_w hd) 32) (uint64_shiftr (timeStamp_w hd) 32).

(** [uint64_t eventCount() { return (eventCount_w << 32) | (eventCount_w >> 32);}] *)
Definition eventCount (hd : Header) : Z :=
  Z.lor (uint64_shiftl (eventCount_w hd) 32) (uint64_shiftr (eventCount_w hd) 32).

(** [uint64_t reserved() { return (reserved_2_w << 32) | (reserved_2_w >> 32);}] *)
Definition reserved (hd : Header) : Z :=
  Z.lor (uint64_shiftl (reserved_2_w hd) 32) (uint64_shiftr (reserved_2_w hd) 32).

(** The three 64-bit members hold values of [uint64_t]. *)
Definition Header_ok (hd : Header) : Prop :=
  0 ≤ timeStamp_w hd < uint64_modulus ∧
  0 ≤ eventCount_w hd < uint64_modulus ∧
  0 ≤ reserved_2_w hd < uint64_modulus.

(** ** Size of the event index *)

Definition int_max : Z := 2 ^ 31 - 1.

(** Conversion of a [size_t] to [int]: the value modulo [2^32], read as a
    signed 32-bit number. *)
Definition to_int (n : Z) : Z := (n + 2 ^ 31) mod 2 ^ 32 - 2 ^ 31.

(** Event numbers without gaps: each is its predecessor plus one. *)
Definition contiguous (keys : list Z) : Prop :=
  ∀ (i : nat) (a b : Z), keys !! i = Some a → keys !! S i = Some b → b = a + 1.

Section Traversal.
Context {PadPos : Type}.

(** [int getNumberOfEvents() const { return  mEvents.size(); }] *)
Definition getNumberOfEvents (r : RawReader PadPos) : Z :=
  to_int (Z.of_nat (map_size (mEvents r))).

(** The iterator is a position of the data map or its end. *)
Definition iterator_ok (r : RawReader PadPos) : Prop :=
  (mDataIterator r ≤ map_end (mData r))%nat.

(** The loop of [testRawReader.cxx],
    [while (std::shared_ptr<std::vector<uint16_t>> data = rr.getNextData(padPos)) { }],
    bounded by [fuel] iterations.  For every iteration that enters the body,
    [padPos] and [data] as the body sees them are recorded. *)
Fixpoint data_loop (fuel : nat) (padPos : PadPos) (r : RawReader PadPos)
    : option (list (PadPos * loc) * PadPos * RawReader PadPos) :=
  match fuel with
  | O => None
  | S fuel' =>
      '(data, padPos', r') ← getNextData padPos r;
      match data with
      | None => Some ([], padPos', r')
      | Some l =>
          '(seen, padPos'', r'') ← data_loop fuel' padPos' r';
          Some ((padPos', l) :: seen, padPos'', r'')
      end
  end.

(** What the body of the loop sees, as entries of the data map. *)
Definition as_entries (seen : list (PadPos * loc)) : list (PadPos * pointer) :=
  (λ x, (x.1, Some x.2)) <$> seen.

End Traversal.

End TPC.

(** * Concrete instances *)

Module Examples.
Import Framework.

(** Simple stand-ins for the types the header only names: options and the
    configuration context as flat key-value maps, the topology as the list
    of its node names. *)
Definition toy : Externals := {|
  ServiceRegistry := list string;
  DeviceState := unit;
  ProgOptions := gmap string string;
  variables_map := gmap string string;
  InitContext := unit;
  ProcessingContext := nat;
  DanglingContext := unit;
  EndOfStreamContext := unit;
  ConfigContext := gmap string string;
  WorkflowSpecNode := list string;
  DeviceMetricsInfo := list Z;
  DeviceSpec := string;
  DeviceInfo := string;
  ServiceHandle := pointer;
  Service := Z
|}.

(** A descriptor with the four given slots and every other slot unset. *)
Definition descriptor (n : string) (k : ServiceKind)
    (i : option (ServiceInit toy)) (m : option (ServiceMetricHandling toy))
    (inj : option (ServiceTopologyInject toy))
    (adj : option (ServiceTopologyAdjust toy)) : ServiceSpec toy := {|
  name := n;
  init := i;
  configure := None;
  preProcessing := None;
  postProcessing := None;
  preDangling := None;
  postDangling := None;
  preEOS := None;
  postEOS := None;
  preFork := None;
  postForkChild := None;
  postForkParent := None;
  preSchedule := None;
  postSchedule := None;
  metricHandling := m;
  postDispatching := None;
  start := None;
  stop := None;
  exit := None;
  driverInit := None;
  driverStartup := None;
  injectTopology := inj;
  adjustTopology := adj;
  kind := k
|}.

(** An [init] that sets an option. *)
Definition init_sets_severity : ServiceInit toy :=
  λ a h, (None, (a.1, (a.2.1, (<["severity" := "debug"]> a.2.2.1, tt))), h).

(** A [metricHandling] that drops the metrics it was given. *)
Definition metrics_drop : ServiceMetricHandling toy :=
  λ a h, (tt, (a.1, ([], (a.2.2.1, (a.2.2.2.1, (a.2.2.2.2.1, tt))))), h).

(** A [metricHandling] that only appends to the driver's own metrics. *)
Definition metrics_count : ServiceMetricHandling toy :=
  λ a h, (tt, (a.1, (a.2.1, (a.2.2.1, (a.2.2.2.1,
            (a.2.2.2.2.1 ++ [Z.of_nat (length a.2.1)], tt))))), h).

(** A [preFork] that notes the fork in the registry. *)
Definition prefork_note : ServicePreFork toy :=
  λ a h, (tt, (a.1 ++ ["forked"], tt), h).

(** An [injectTopology] that adds one node. *)
Definition inject_proxy : ServiceTopologyInject toy :=
  λ a h, (tt, (a.1 ++ ["internal-proxy"], (a.2.1, tt)), h).

(** An [adjustTopology] that removes the nodes whose name starts with
    ["internal"]. *)
Definition adjust_prune : ServiceTopologyAdjust toy :=
  λ a h, (tt, (filter (λ n, ¬ String.prefix "internal" n = true) a.1, tt), h).

(** An [adjustTopology] that leaves the graph as it is. *)
Definition adjust_check : ServiceTopologyAdjust toy :=
  λ a h, (tt, (a.1, tt), h).

Definition monitoring : ServiceSpec toy :=
  descriptor "monitoring" Serial (Some init_sets_severity) (Some metrics_count) None None.
Definition monitoring' : ServiceSpec toy :=
  descriptor "monitoring" Serial None (Some metrics_drop) None None.

(** A processing callback that counts its calls in the context and in the
    service instance. *)
Definition count_call : ServiceProcessingCallback toy :=
  λ a h, (tt, (S a.1, tt),
          match a.2.1 with
          | Some l => alter (Z.add 1) l h
          | None => h
          end).

(** A processing handle on the monitoring service, and the objects it
    refers to. *)
Definition monitoring_handle : ServiceProcessingHandle (E:=toy) := {|
  spec := 1%positive;
  callback := count_call;
  service := Some 5%positive
|}.

Definition memory : Memory toy := {|
  descriptors := {[ 1%positive := monitoring ]};
  instances := {[ 5%positive := 40 ]}
|}.

(** What code could do if a handle held its descriptor by reference to
    non-const: rename the service. *)
Definition rename : HandleOperation toy ByRef TProcessingContext RVoid :=
  λ d cb service ctx hp, (tt, monitoring', ctx, hp).

(** A pad position as a row and a pad, ordered by row and then by pad. *)
Record PadPos := { row : Z; pad : Z }.

Definition PadPos_less (a b : PadPos) : bool :=
  (row a <? row b) || ((row a =? row b) && (pad a <? pad b)).

(** A [loadEvent] for which every load fails and changes nothing. *)
Definition load_fails : Z → TPC.RawReader PadPos → TPC.VecHeap
    → bool * TPC.RawReader PadPos * TPC.VecHeap :=
  λ _ r h, (false, r, h).

(** A reader that indexed events 2, 3 and 5 and holds the data of two pads
    of event 3. *)
Definition loaded : TPC.RawReader PadPos := {|
  TPC.mLastEvent := 3;
  TPC.mTimestampOfFirstData := 1000;
  TPC.mEvents := [(2, []); (3, []); (5, [])];
  TPC.mData := [({| row := 0; pad := 0 |}, Some 1%positive);
                ({| row := 0; pad := 1 |}, Some 2%positive)];
  TPC.mDataIterator := 0;
  TPC.mSyncPos := [0; 0; 0; 0; 0]
|}.

Definition adc : TPC.VecHeap := {[ 1%positive := [10; 11]; 2%positive := [20] ]}.

(** A reader to which no input file was added. *)
Definition unloaded : TPC.RawReader PadPos := {|
  TPC.mLastEvent := -1;
  TPC.mTimestampOfFirstData := 0;
  TPC.mEvents := [];
  TPC.mData := [];
  TPC.mDataIterator := 0;
  TPC.mSyncPos := [0; 0; 0; 0; 0]
|}.

(** A header whose three wide members hold the words in reversed order. *)
Definition header : TPC.Header := {|
  TPC.dataType := 1;
  TPC.reserved_01 := 0;
  TPC.headerVersion := 1;
  TPC.nWords := 8;
  TPC.timeStamp_w := 0x0000000200000001;
  TPC.eventCount_w := 0x0000000700000000;
  TPC.reserved_2_w := 0xFFFFFFFF00000000
|}.

(** The loaded reader with the event index of a run without gaps. *)
Definition gapless : TPC.RawReader PadPos := {|
  TPC.mLastEvent := 3;
  TPC.mTimestampOfFirstData := 1000;
  TPC.mEvents := [(2, []); (3, []); (4, [])];
  TPC.mData := TPC.mData loaded;
  TPC.mDataIterator := 0;
  TPC.mSyncPos := [0; 0; 0; 0; 0]
|}.

End Examples.

(** * Properties of the callback embedding *)

Section CallbackFacts.
Import Framework.
Context (E : Externals).

(** A parameter not passed by non-const reference holds, after the call,
    the object it held before. *)
Lemma writeback_frame (ps : list Param) (i : nat) (p : Param)
    (a : args E ps) (o : outs E ps) :
  ps !! i = Some p → p.2 ≠ ByRef →
  arg_at E ps i (writeback E ps a o) = arg_at E ps i a.
Proof.
  revert i a o. induction ps as [|q ps IH]; intros i a o Hi Hp.
  - done.
  - destruct q as [t m], a as [x a]. destruct i as [|j]; simpl in Hi.
    + injection Hi as <-. simpl in Hp. destruct m; try done.
    + destruct m; simpl; eauto.
Qed.

Lemma invoke_frame (s : Signature) (cb : std_function E s)
    (a : args E (params s)) (h : Heap E) (i : nat) (p : Param) :
  params s !! i = Some p → p.2 ≠ ByRef →
  arg_at E (params s) i (invoke E cb a h).1.2 = arg_at E (params s) i a.
Proof.
  intros Hi Hp. unfold invoke. destruct (cb a h) as [[res o] h'].
  simpl. by eapply writeback_frame.
Qed.

End CallbackFacts.

(** * The service descriptor *)

Section DescriptorFacts.
Import Framework.

(** C1: the callback members of [ServiceSpec] are exactly the slots the
    specification names (init, configure, preProcessing/postProcessing,
    preDangling/postDangling, preEOS/postEOS, preFork/postForkChild/
    postForkParent, preSchedule/postSchedule, metricHandling,
    postDispatching, start/stop/exit, driverInit/driverStartup,
    injectTopology/adjustTopology); each member of any descriptor is either
    unset or bound to a function value; and in a default-constructed
    descriptor every one of them is unset. *)
Theorem ServiceSpec_callback_slots :
  slot_name <$> all_slots = spec_slot_names ∧
  NoDup all_slots ∧
  (∀ s : Slot, s ∈ all_slots) ∧
  (∀ E (d : ServiceSpec E) (s : Slot), slot d s = None ∨ ∃ f, slot d s = Some f) ∧
  (∀ E (s : Slot), slot (ServiceSpec_default E) s = None).
Proof.
  split_and!.
  - reflexivity.
  - apply (bool_decide_unpack _). vm_compute. exact I.
  - intros s. apply (bool_decide_unpack _). by destruct s.
  - intros E d s. destruct (slot d s) as [f|]; eauto.
  - intros E s. by destruct s.
Qed.

(** C2: registering a descriptor whose [(name, kind)] is already in the
    registry fails with a registration error, whatever the descriptor's
    callbacks are, and the registry is left as it was. *)
Theorem register_duplicate_fails E (reg : Registry E) (d : ServiceSpec E) :
  key d ∈ key <$> reg →
  register d reg = (inl (DuplicateKey (key d)), reg).
Proof.
  intros Hin. unfold register, present.
  by rewrite bool_decide_eq_true_2.
Qed.

(** A second descriptor named ["monitoring"] of kind [Serial], with other
    callbacks than the registered one, is refused. *)
Lemma register_duplicate_fails_witness :
  Examples.monitoring ≠ Examples.monitoring' ∧
  register Examples.monitoring' [Examples.monitoring]
  = (inl (DuplicateKey ("monitoring", Serial)), [Examples.monitoring]).
Proof.
  split.
  - intros Heq. apply (f_equal (init Examples.toy)) in Heq. discriminate Heq.
  - apply (register_duplicate_fails Examples.toy [Examples.monitoring] Examples.monitoring').
    simpl. left.
Defined.

(** Registering under a key that is not present appends the descriptor. *)
Lemma register_fresh_succeeds E (reg : Registry E) (d : ServiceSpec E) :
  key d ∉ key <$> reg → register d reg = (inr tt, reg ++ [d]).
Proof.
  intros Hin. unfold register, present.
  by rewrite bool_decide_eq_false_2.
Qed.

(** The eight structs of the header are the eight shapes. *)
Lemma HandleOf_structs E :
  HandleOf E ConfigureHandle = ServiceConfigureHandle (E:=E) ∧
  HandleOf E ProcessingHandle = ServiceProcessingHandle (E:=E) ∧
  HandleOf E DanglingHandle = ServiceDanglingHandle (E:=E) ∧
  HandleOf E EOSHandle = ServiceEOSHandle (E:=E) ∧
  HandleOf E DispatchingHandle = ServiceDispatchingHandle (E:=E) ∧
  HandleOf E StartHandle = ServiceStartHandle (E:=E) ∧
  HandleOf E StopHandle = ServiceStopHandle (E:=E) ∧
  HandleOf E ExitHandle = ServiceExitHandle (E:=E).
Proof. by split_and!. Qed.

(** C7: each of the eight handle structs declares its [spec] member as a
    reference to const, so whatever a framework operation performed through
    a handle does -- firing the handle's callback on the handle's service
    included -- it leaves every descriptor, with its name, kind and callback
    slots, as it was. *)
Theorem handles_leave_descriptors E (k : HandleStruct) :
  spec_member k = ByConstRef ∧
  descriptors_kept E (spec_member k) (handle_shape k).1 (handle_shape k).2.
Proof.
  split; [by destruct k|].
  assert (descriptors_kept E ByConstRef (handle_shape k).1 (handle_shape k).2)
    as Hkept; [|by destruct k].
  intros op hd ctx m res ctx' m'. unfold perform.
  destruct (descriptors m !! spec hd) as [d|] eqn:Hd; [|done]. simpl.
  destruct (op d _ _ _ _) as [[[res0 d'] ctx0] hp].
  intros [= _ _ <-]. simpl. by apply insert_id.
Qed.

(** Firing the processing handle of the monitoring service counts the call
    in the context and in the service instance; the descriptor stays. *)
Lemma handles_leave_descriptors_witness :
  ∃ m', perform (fire ByConstRef) Examples.monitoring_handle 0%nat Examples.memory
        = Some (tt, 1%nat, m') ∧
        instances m' !! 5%positive = Some 41 ∧
        descriptors m' = descriptors Examples.memory.
Proof.
  destruct (perform (fire ByConstRef) Examples.monitoring_handle 0%nat
              Examples.memory) as [[[res ctx'] m']|] eqn:Hperform;
    [|vm_compute in Hperform; discriminate Hperform].
  pose proof (proj2 (handles_leave_descriptors Examples.toy ProcessingHandle)
                (fire ByConstRef) Examples.monitoring_handle 0%nat
                Examples.memory res ctx' m' Hperform) as Hkept.
  exists m'. vm_compute in Hperform. injection Hperform as <- <- <-.
  split_and!; [reflexivity | reflexivity | exact Hkept].
Defined.

(** The declaration matters: through a member declared [ServiceSpec& spec]
    an operation could replace the descriptor. *)
Lemma descriptors_not_kept_by_reference :
  ¬ descriptors_kept Examples.toy ByRef TProcessingContext RVoid.
Proof.
  intros Hkept.
  specialize (Hkept Examples.rename Examples.monitoring_handle 0%nat
                Examples.memory tt 0%nat _ eq_refl).
  apply (f_equal (λ ds : gmap loc (ServiceSpec Examples.toy),
                    init Examples.toy <$> ds !! 1%positive)) in Hkept.
  vm_compute in Hkept. discriminate Hkept.
Qed.

End DescriptorFacts.

(** * Metric handling *)

Section DispatchFacts.
Import Framework.

(** A [metricHandling] call keeps the timestamp, which it takes by value. *)
Lemma metricHandling_keeps_timestamp E (cb : ServiceMetricHandling E) a h :
  timestamp_of (invoke E cb a h).1.2 = timestamp_of a.
Proof.
  unfold invoke. by destruct (cb a h) as [[res o] h'].
Qed.

(** After a [metricHandling] call the caller's metrics, specs and infos are
    those the target handed back. *)
Lemma metricHandling_hands_back E (cb : ServiceMetricHandling E) a h :
  snapshot (invoke E cb a h).1.2 = handed_back (cb a h).1.2.
Proof.
  unfold invoke. by destruct (cb a h) as [[res o] h'].
Qed.




End DispatchFacts.

(** * Options *)

Section OptionsFacts.
Import Framework.

(** C4, as amended: [preFork], [preSchedule], [postSchedule], [driverInit]
    and [driverStartup] take the parsed options
    ([boost::program_options::variables_map]) by reference to const, and a
    call of any of them leaves the options as they were.  [init] takes
    [fair::mq::ProgOptions] by non-const reference; [configure],
    [postForkChild] and [postForkParent] do not take the options. *)
Theorem options_by_const_reference E :
  (∀ s, s ∈ [SpreFork; SpreSchedule; SpostSchedule; SdriverInit; SdriverStartup] →
     passing_of (slot_signature s) TVariablesMap = Some ByConstRef ∧
     passing_of (slot_signature s) TProgOptions = None ∧
     ∀ (cb : std_function E (slot_signature s)) a h i p,
       params (slot_signature s) !! i = Some p → is_options p.1 →
       arg_at E (params (slot_signature s)) i (invoke E cb a h).1.2
       = arg_at E (params (slot_signature s)) i a) ∧
  passing_of (slot_signature Sinit) TProgOptions = Some ByRef ∧
  passing_of (slot_signature Sinit) TVariablesMap = None ∧
  (∀ s, s ∈ [Sconfigure; SpostForkChild; SpostForkParent] →
     passing_of (slot_signature s) TVariablesMap = None ∧
     passing_of (slot_signature s) TProgOptions = None).
Proof.
  split_and!; try reflexivity.
  - intros s Hs. split_and!.
    + set_unfold in Hs. by destruct Hs as [->|[->|[->|[->|[->|[]]]]]].
    + set_unfold in Hs. by destruct Hs as [->|[->|[->|[->|[->|[]]]]]].
    + intros cb a h i p Hi Hopt. eapply invoke_frame; [exact Hi|].
      set_unfold in Hs.
      destruct Hs as [->|[->|[->|[->|[->|[]]]]]];
        (destruct i as [|[|[|]]]; simpl in Hi; simplify_eq;
         destruct Hopt; simplify_eq; done).
  - intros s Hs. set_unfold in Hs. by destruct Hs as [->|[->|[->|[]]]].
Qed.

(** A [preFork] call that changes the registry hands the options back
    untouched. *)
Lemma options_by_const_reference_witness :
  (invoke Examples.toy Examples.prefork_note
     ([], ({["severity" := "info"]}, tt)) ∅).1.2.1 = ["forked"] ∧
  arg_at Examples.toy (params sig_ServicePreFork) 1
    (invoke Examples.toy Examples.prefork_note
       ([], ({["severity" := "info"]}, tt)) ∅).1.2
  = Some (existT TVariablesMap ({["severity" := "info"]} : gmap string string)).
Proof.
  split; [reflexivity|].
  destruct (options_by_const_reference Examples.toy) as [Hconst _].
  destruct (Hconst SpreFork) as (_ & _ & Hframe).
  - set_unfold. left. reflexivity.
  - etrans.
    + apply (Hframe Examples.prefork_note ([], ({["severity" := "info"]}, tt)) ∅
               1%nat (TVariablesMap, ByConstRef)).
      * reflexivity.
      * right. reflexivity.
    + reflexivity.
Defined.

(** C4, as stated, fails: an [init] target may change the options it
    receives. *)
Lemma options_read_only_fails : ¬ options_read_only Examples.toy.
Proof.
  intros Hro.
  destruct (Hro Sinit) as [_ Hframe].
  { set_unfold. by left. }
  specialize (Hframe Examples.init_sets_severity ([], (tt, (∅, tt))) ∅
                2%nat (TProgOptions, ByRef) eq_refl (or_introl eq_refl)).
  simpl in Hframe. apply (inj Some) in Hframe.
  apply (Eqdep_dec.inj_pair2_eq_dec _ (λ x y, decide (x = y))) in Hframe.
  apply (f_equal (λ m : gmap string string, m !! "severity")) in Hframe.
  vm_compute in Hframe. discriminate Hframe.
Qed.

(** [postForkChild] has a single parameter, the service registry. *)
Lemma postForkChild_takes_no_options :
  ¬ ∃ i p, params (slot_signature SpostForkChild) !! i = Some p ∧ is_options p.1.
Proof.
  intros (i & p & Hi & Hopt). destruct i as [|[|]]; simpl in Hi; simplify_eq.
  by destruct Hopt.
Qed.

End OptionsFacts.

(** * Topology *)

Section TopologyFacts.
Import Framework.

(** An [adjustTopology] call keeps the configuration context, which it
    takes by reference to const. *)
Lemma adjustTopology_keeps_context E (cb : ServiceTopologyAdjust E) a h :
  (invoke E cb a h).1.2.2.1 = a.2.1.
Proof.
  unfold invoke. by destruct (cb a h) as [[res o] h'].
Qed.

(** After an [adjustTopology] call the caller's graph is the one the target
    handed back. *)
Lemma adjustTopology_hands_back E (cb : ServiceTopologyAdjust E) a h :
  (invoke E cb a h).1.2.1 = (cb a h).1.2.1.
Proof.
  unfold invoke. by destruct (cb a h) as [[res o] h'].
Qed.




End TopologyFacts.

(** * The raw reader *)

Section MapFacts.
Import TPC.
Context {K V : Type} (less : K → K → bool).

(** [find] returns the position of an entry with an equivalent key ... *)
Lemma map_find_found (m : stdmap (K:=K) (V:=V)) (k : K) :
  map_find less m k ≠ map_end m →
  ∃ e, deref m (map_find less m k) = Some e ∧ equivalent less e.1 k = true.
Proof.
  unfold map_find, deref.
  destruct (list_find _ m) as [[i e]|] eqn:Hfind; [|done].
  intros _. apply list_find_Some in Hfind as (Hi & He & _). eauto.
Qed.

(** ... and [end()] exactly when there is none. *)
Lemma map_find_end (m : stdmap (K:=K) (V:=V)) (k : K) :
  map_find less m k = map_end m ↔ ∀ e, e ∈ m → equivalent less e.1 k = false.
Proof.
  unfold map_find, map_end.
  destruct (list_find _ m) as [[i e]|] eqn:Hfind.
  - apply list_find_Some in Hfind as (Hi & He & _). split.
    + intros ->. apply lookup_lt_Some in Hi. lia.
    + intros Hnone. rewrite Hnone in He; [done|].
      by eapply list_elem_of_lookup_2.
  - apply list_find_None in Hfind. split; [|done]. intros _ e He.
    rewrite Forall_forall in Hfind. specialize (Hfind e He).
    by destruct (equivalent less e.1 k).
Qed.

End MapFacts.

Section EventIndexFacts.
Import TPC.

(** In a strictly ascending sequence the last entry is the greatest. *)
Lemma ascending_last {V : Type} (m : list (Z * V)) (e : Z * V) :
  map_ok Z.ltb m → last m = Some e → ∀ x, x ∈ m → x.1 ≤ e.1.
Proof.
  induction 1 as [|x m Hsorted IH Hx]; [done|].
  intros Hlast x0 Hin. destruct m as [|y m].
  - simpl in Hlast. simplify_eq.
    apply list_elem_of_singleton in Hin as ->. lia.
  - change (last (y :: m) = Some e) in Hlast. specialize (IH Hlast).
    apply elem_of_cons in Hin as [->|Hin]; [|by apply IH].
    rewrite Forall_forall in Hx.
    assert ((x.1 <? y.1) = true) as Hxy%Z.ltb_lt by (apply Hx; left).
    assert (y.1 ≤ e.1) by (apply IH; left). lia.
Qed.

(** ... and the first entry is the least. *)
Lemma ascending_first {V : Type} (x : Z * V) (m : list (Z * V)) :
  map_ok Z.ltb (x :: m) → ∀ y, y ∈ x :: m → x.1 ≤ y.1.
Proof.
  intros Hsorted y Hin. apply StronglySorted_inv in Hsorted as [_ Hx].
  apply elem_of_cons in Hin as [->|Hin]; [lia|].
  rewrite Forall_forall in Hx. apply Hx in Hin. apply Z.ltb_lt in Hin. lia.
Qed.

(** X3: on a reader whose event index has entries, [getFirstEvent] returns
    the smallest event number of the index and [getLastEvent] the largest. *)
Lemma getFirstEvent_getLastEvent_nonempty {PadPos} (r : RawReader PadPos) :
  mEvents r ≠ [] → map_ok Z.ltb (mEvents r) →
  ∃ lo hi, getFirstEvent r = Some lo ∧ getLastEvent r = Some hi ∧
           lo ∈ (mEvents r).*1 ∧ hi ∈ (mEvents r).*1 ∧
           ∀ k, k ∈ (mEvents r).*1 → lo ≤ k ≤ hi.
Proof.
  unfold getFirstEvent, getLastEvent, deref, deref_rbegin, map_begin, map_size.
  destruct (mEvents r) as [|x m] eqn:Hm; [done|]. intros _ Hsorted.
  destruct (last (x :: m)) as [e|] eqn:Hlast.
  2:{ apply last_None in Hlast. done. }
  exists x.1, e.1. rewrite decide_False by done.
  assert (e ∈ x :: m) as He.
  { apply last_Some in Hlast as [l' ->]. apply elem_of_app. right. left. }
  split_and!; try done.
  - apply list_elem_of_fmap. exists x. split; [done|left].
  - apply list_elem_of_fmap. by exists e.
  - intros k (y & -> & Hy)%list_elem_of_fmap. split.
    + by eapply ascending_first.
    + by eapply ascending_last.
Qed.

(** C8: on a reader whose event index is empty, [getFirstEvent]
    dereferences [mEvents.begin()], which is [end()], and so does the
    [size() == 0] branch of [getLastEvent]: neither returns a value. *)
Theorem getFirstEvent_getLastEvent_empty {PadPos} (r : RawReader PadPos) :
  mEvents r = [] → getFirstEvent r = None ∧ getLastEvent r = None.
Proof.
  unfold getFirstEvent, getLastEvent, map_size. by intros ->.
Qed.

Lemma getFirstEvent_getLastEvent_empty_witness :
  getFirstEvent Examples.unloaded = None ∧ getLastEvent Examples.unloaded = None.
Proof.
  apply (getFirstEvent_getLastEvent_empty Examples.unloaded). reflexivity.
Defined.

End EventIndexFacts.

Section LoadFacts.
Import TPC.
Context {PadPos : Type}.
Context (loadEvent : Z → RawReader PadPos → VecHeap → bool * RawReader PadPos * VecHeap).

(** C9: [loadNextEvent()] is [loadEvent(e + 1)] for [e] the recorded number
    of the last loaded event: the same success indicator and the same state
    after the call.  ([e + 1] is computed on [int64_t]; the hypothesis says
    that [e] is an [int64_t] below its largest value.) *)
Theorem loadNextEvent_is_loadEvent_succ (r : RawReader PadPos) (h : VecHeap) :
  int64_min ≤ mLastEvent r < int64_max →
  loadNextEvent loadEvent r h = Some (loadEvent (mLastEvent r + 1) r h).
Proof.
  intros Hrange. unfold loadNextEvent, int64_add.
  rewrite decide_True; [done|].
  unfold int64_min, int64_max in *. lia.
Qed.

(** At the largest [int64_t] the argument [mLastEvent+1] overflows. *)
Lemma loadNextEvent_overflow (r : RawReader PadPos) (h : VecHeap) :
  mLastEvent r = int64_max → loadNextEvent loadEvent r h = None.
Proof.
  intros He. unfold loadNextEvent, int64_add. rewrite He.
  rewrite decide_False; [done|]. unfold int64_min, int64_max. lia.
Qed.

End LoadFacts.

Lemma loadNextEvent_is_loadEvent_succ_witness :
  TPC.loadNextEvent Examples.load_fails Examples.loaded Examples.adc
  = Some (Examples.load_fails 4 Examples.loaded Examples.adc).
Proof.
  apply (loadNextEvent_is_loadEvent_succ Examples.load_fails
           Examples.loaded Examples.adc).
  unfold TPC.int64_min, TPC.int64_max. simpl. lia.
Defined.

Section DataFacts.
Import TPC.
Context {PadPos : Type} (PadPos_less : PadPos → PadPos → bool).

(** C10: on a reader whose data map holds no null pointer and whose
    iterator is a position of the map, [getData(padPos)] returns a non-null
    pointer and leaves the data map as it is: the pointer stored under
    [padPos] when the map has that position, and otherwise a pointer to a
    vector allocated by this call, which is empty.  [getNextData] returns
    null exactly when the iterator is at the end of the data map. *)
Theorem getData_getNextData_pointers (r : RawReader PadPos) (h : VecHeap)
    (padPos : PadPos) :
  (∀ e, e ∈ mData r → e.2 ≠ None) →
  (mDataIterator r ≤ length (mData r))%nat →
  (∃ p r' h',
     getData PadPos_less padPos r h = Some (Some p, r', h') ∧
     mData r' = mData r ∧
     ((∃ e, e ∈ mData r ∧ equivalent PadPos_less e.1 padPos = true) →
      h' = h ∧
      ∃ e, e ∈ mData r ∧ equivalent PadPos_less e.1 padPos = true ∧ e.2 = Some p) ∧
     ((∀ e, e ∈ mData r → equivalent PadPos_less e.1 padPos = false) →
      (p ∉ dom h) ∧ h' = <[p := []]> h ∧ h' !! p = Some [])) ∧
  (∃ q padPos' r',
     getNextData padPos r = Some (q, padPos', r') ∧
     mData r' = mData r ∧
     (q = None ↔ mDataIterator r = length (mData r))).
Proof.
  intros Hnonnull Hiter. split.
  - unfold getData.
    destruct (decide (map_find PadPos_less (mData r) padPos = map_end (mData r)))
      as [Hend|Hfound].
    + exists (fresh (dom h)), (set_mDataIterator (map_end (mData r)) r),
        (<[fresh (dom h) := []]> h).
      rewrite Hend. split_and!; try done.
      * intros (e & He & Heq).
        pose proof (proj1 (map_find_end PadPos_less (mData r) padPos) Hend e He).
        congruence.
      * intros _. split_and!; [apply is_fresh|done|apply lookup_insert_eq].
    + destruct (map_find_found PadPos_less (mData r) padPos Hfound)
        as (e & He & Heq).
      assert (e ∈ mData r) as Hin by (by eapply list_elem_of_lookup_2).
      destruct e as [k [p|]]; [|by destruct (Hnonnull _ Hin)].
      exists p, (set_mDataIterator (map_find PadPos_less (mData r) padPos) r), h.
      rewrite He. split_and!; try done.
      * intros _. split; [done|]. by exists (k, Some p).
      * intros Hnone. rewrite (Hnone _ Hin) in Heq. done.
  - unfold getNextData, map_end.
    destruct (decide (mDataIterator r = length (mData r))) as [Hend|Hmore].
    + by exists None, padPos, r.
    + destruct (lookup_lt_is_Some_2 (mData r) (mDataIterator r)) as [e He];
        [lia|].
      assert (e ∈ mData r) as Hin by (by eapply list_elem_of_lookup_2).
      change (deref (mData r) (mDataIterator r) = Some e) in He.
      exists e.2, e.1, (set_mDataIterator (S (mDataIterator r)) r).
      rewrite He. split_and!; try done.
      split; [|done]. intros Hnull. by destruct (Hnonnull _ Hin).
Qed.

End DataFacts.

(** On the loaded reader: a stored position, a position that is not stored,
    and the traversal from its start. *)
Lemma getData_getNextData_pointers_witness :
  (λ x, x.1.1) <$> TPC.getData Examples.PadPos_less
     {| Examples.row := 0; Examples.pad := 1 |} Examples.loaded Examples.adc
  = Some (Some 2%positive) ∧
  (λ x, x.1.1) <$> TPC.getData Examples.PadPos_less
     {| Examples.row := 4; Examples.pad := 4 |} Examples.loaded Examples.adc
  = Some (Some 3%positive) ∧
  ∃ q padPos' r',
    TPC.getNextData {| Examples.row := 4; Examples.pad := 4 |} Examples.loaded
    = Some (q, padPos', r') ∧
    TPC.mData r' = TPC.mData Examples.loaded ∧
    (q = None ↔ TPC.mDataIterator Examples.loaded = length (TPC.mData Examples.loaded)).
Proof.
  split_and!; [reflexivity|vm_compute; reflexivity|].
  apply (getData_getNextData_pointers Examples.PadPos_less Examples.loaded
           Examples.adc {| Examples.row := 4; Examples.pad := 4 |}).
  - apply Forall_forall. repeat constructor; done.
  - simpl. lia.
Defined.

Section HistoryFacts.
Import TPC.
Context {PadPos : Type} (PadPos_less : PadPos → PadPos → bool).
Context (loadEvent : Z → RawReader PadPos → VecHeap → bool * RawReader PadPos * VecHeap).

(** C6, as amended: the reader keeps state between calls (the event index,
    the data of the loaded event, the traversal position, the number of the
    last loaded event), and what a call returns is determined by its
    arguments, the vectors on the heap and the members that call reads:
    [mEvents] for [getFirstEvent] and [getLastEvent],
    [mTimestampOfFirstData] for [getTimeStamp], [mData] for [getData],
    [mData] and [mDataIterator] for [getNextData], and the reader as a whole
    for the two loads.  Two readers that agree on those members give the
    same result. *)
Theorem result_from_members_read (c : Call PadPos) (r1 r2 : RawReader PadPos)
    (h : VecHeap) :
  agree_on_read c r1 r2 →
  (λ x, x.1.1) <$> call PadPos_less loadEvent c r1 h
  = (λ x, x.1.1) <$> call PadPos_less loadEvent c r2 h.
Proof.
  destruct c as [| event | | | | padPos | padPos]; simpl.
  - by intros ->.
  - by intros ->.
  - intros Hev. unfold getFirstEvent. rewrite Hev.
    by destruct (deref (mEvents r2) _).
  - intros Hev. unfold getLastEvent. rewrite Hev.
    destruct (decide _);
      [by destruct (deref (mEvents r2) _) | by destruct (deref_rbegin (mEvents r2))].
  - intros Hts. unfold getTimeStamp. by rewrite Hts.
  - intros Hdata. unfold getData. rewrite Hdata.
    destruct (decide _); [done|].
    by destruct (deref (mData r2) _).
  - intros [Hdata Hit]. unfold getNextData. rewrite Hdata, Hit.
    destruct (decide _); [done|].
    by destruct (deref (mData r2) _).
Qed.

End HistoryFacts.

(** Two readers with the same loaded data, one of them after further loads
    and traversal, answer [getData] alike. *)
Lemma result_from_members_read_witness :
  let later := TPC.set_mDataIterator 2 Examples.loaded in
  (λ x, x.1.1) <$> TPC.call Examples.PadPos_less Examples.load_fails
     (TPC.CallGetData {| Examples.row := 0; Examples.pad := 1 |})
     Examples.loaded Examples.adc
  = (λ x, x.1.1) <$> TPC.call Examples.PadPos_less Examples.load_fails
     (TPC.CallGetData {| Examples.row := 0; Examples.pad := 1 |})
     later Examples.adc.
Proof.
  apply (result_from_members_read Examples.PadPos_less Examples.load_fails
           (TPC.CallGetData {| Examples.row := 0; Examples.pad := 1 |})
           Examples.loaded (TPC.set_mDataIterator 2 Examples.loaded) Examples.adc).
  reflexivity.
Defined.

(** C6, as stated, fails: the reader keeps the traversal position, so the
    same [getNextData] call returns the first pad's data on the reader as
    loaded and the second pad's data after one earlier [getNextData]. *)
Lemma stateless_fails : ¬ TPC.stateless Examples.PadPos_less Examples.load_fails.
Proof.
  intros Hstateless.
  specialize (Hstateless Examples.loaded Examples.adc
    [] [TPC.CallGetNextData {| Examples.row := 0; Examples.pad := 0 |}]
    (TPC.CallGetNextData {| Examples.row := 0; Examples.pad := 0 |})
    Examples.loaded Examples.adc
    (TPC.set_mDataIterator 1 Examples.loaded) Examples.adc
    eq_refl eq_refl).
  vm_compute in Hstateless. discriminate Hstateless.
Qed.

(** * Further properties of the raw reader *)

Section HeaderFacts.
Import TPC.

(** Or-ing a multiple of [2^32] with a number below [2^32] adds them. *)
Lemma lor_high_low (hi lo : Z) :
  0 ≤ lo < 2 ^ 32 → Z.lor (hi * 2 ^ 32) lo = hi * 2 ^ 32 + lo.
Proof.
  intros Hlo. rewrite <- Z.lxor_lor, <- Z.add_nocarry_lxor; try done.
  all: apply Z.bits_inj'; intros n Hn; rewrite Z.land_spec, Z.bits_0.
  all: destruct (decide (n < 32)) as [Hlt|Hge].
  all: try (rewrite Z.mul_pow2_bits_low by lia; done).
  all: destruct (decide (lo = 0)) as [->|Hnz];
    [by rewrite Z.bits_0, andb_false_r|].
  all: rewrite (Z.bits_above_log2 lo n), andb_false_r; try done; try lia.
  all: assert (Z.log2 lo < 32) by (apply Z.log2_lt_pow2; lia); lia.
Qed.

(** The accessors' expression exchanges the two 32-bit words of a
    [uint64_t]. *)
Lemma swap_words (w : Z) :
  0 ≤ w < uint64_modulus →
  Z.lor (uint64_shiftl w 32) (uint64_shiftr w 32)
  = (w mod 2 ^ 32) * 2 ^ 32 + w / 2 ^ 32.
Proof.
  unfold uint64_shiftl, uint64_shiftr, uint64_modulus. intros Hw.
  rewrite Z.shiftl_mul_pow2, Z.shiftr_div_pow2 by lia.
  change (2 ^ 64) with (2 ^ 32 * 2 ^ 32).
  rewrite Z.mul_mod_distr_r by lia.
  apply lor_high_low. split.
  - apply Z.div_pos; lia.
  - apply Z.div_lt_upper_bound; lia.
Qed.

Lemma swap_words_range (w : Z) :
  0 ≤ w < uint64_modulus →
  0 ≤ (w mod 2 ^ 32) * 2 ^ 32 + w / 2 ^ 32 < uint64_modulus.
Proof.
  unfold uint64_modulus. intros Hw.
  assert (0 ≤ w mod 2 ^ 32 < 2 ^ 32) by (apply Z.mod_pos_bound; lia).
  assert (0 ≤ w / 2 ^ 32) by (apply Z.div_pos; lia).
  assert (w / 2 ^ 32 < 2 ^ 32) by (apply Z.div_lt_upper_bound; lia).
  change (2 ^ 64) with (2 ^ 32 * 2 ^ 32). nia.
Qed.

Lemma swap_words_twice (w : Z) :
  0 ≤ w < uint64_modulus →
  let s := (w mod 2 ^ 32) * 2 ^ 32 + w / 2 ^ 32 in
  (s mod 2 ^ 32) * 2 ^ 32 + s / 2 ^ 32 = w.
Proof.
  unfold uint64_modulus. intros Hw. cbv zeta.
  assert (0 ≤ w / 2 ^ 32) by (apply Z.div_pos; lia).
  assert (w / 2 ^ 32 < 2 ^ 32) by (apply Z.div_lt_upper_bound; lia).
  pose proof (Z.div_mod w (2 ^ 32)) as Hdm.
  set (lo := w mod 2 ^ 32) in *. set (hi := w / 2 ^ 32) in *.
  rewrite (Z.add_comm (lo * 2 ^ 32) hi), Z.mod_add, Z.div_add by lia.
  rewrite Z.mod_small, Z.div_small by lia. lia.
Qed.

(** X1: on a header whose wide members are [uint64_t] values,
    [timeStamp()], [eventCount()] and [reserved()] return the stored word
    with its low 32 bits moved to the high half and its high 32 bits moved
    to the low half, and the result is again a [uint64_t] value. *)
Theorem Header_accessors_exchange_words (hd : Header) :
  Header_ok hd →
  timeStamp hd = (timeStamp_w hd mod 2 ^ 32) * 2 ^ 32 + timeStamp_w hd / 2 ^ 32 ∧
  eventCount hd = (eventCount_w hd mod 2 ^ 32) * 2 ^ 32 + eventCount_w hd / 2 ^ 32 ∧
  reserved hd = (reserved_2_w hd mod 2 ^ 32) * 2 ^ 32 + reserved_2_w hd / 2 ^ 32 ∧
  0 ≤ timeStamp hd < uint64_modulus ∧
  0 ≤ eventCount hd < uint64_modulus ∧
  0 ≤ reserved hd < uint64_modulus.
Proof.
  intros (Ht & He & Hr). unfold timeStamp, eventCount, reserved.
  rewrite !swap_words by done.
  split_and!; try done; by apply swap_words_range.
Qed.

Lemma Header_accessors_exchange_words_witness :
  TPC.timeStamp Examples.header = 0x0000000100000002 ∧
  TPC.eventCount Examples.header = 7 ∧
  TPC.reserved Examples.header = 0x00000000FFFFFFFF.
Proof.
  destruct (Header_accessors_exchange_words Examples.header)
    as (Ht & He & Hr & _).
  - repeat split; vm_compute; (reflexivity || discriminate).
  - split_and!; (etrans; [eassumption | vm_compute; reflexivity]).
Defined.

(** X2: the exchange is its own inverse.  A header that stores, in a wide
    member, what the accessor of another header returned reads back that
    other header's stored word; so two stored words with the same accessor
    value are the same word. *)
Theorem Header_accessors_involutive (hd hd' : Header) :
  Header_ok hd →
  (timeStamp_w hd' = timeStamp hd → timeStamp hd' = timeStamp_w hd) ∧
  (eventCount_w hd' = eventCount hd → eventCount hd' = eventCount_w hd) ∧
  (reserved_2_w hd' = reserved hd → reserved hd' = reserved_2_w hd).
Proof.
  intros (Ht & He & Hr).
  unfold timeStamp, eventCount, reserved.
  split_and!; intros ->.
  all: rewrite (swap_words (Z.lor _ _));
    rewrite swap_words by done;
    [by apply swap_words_twice | by apply swap_words_range].
Qed.

Lemma Header_accessors_involutive_witness :
  ∃ hd', TPC.timeStamp_w hd' = TPC.timeStamp Examples.header ∧
         TPC.timeStamp hd' = TPC.timeStamp_w Examples.header.
Proof.
  pose (hd' := {| dataType := 1; reserved_01 := 0; headerVersion := 1;
                  nWords := 8; timeStamp_w := TPC.timeStamp Examples.header;
                  eventCount_w := 0; reserved_2_w := 0 |}).
  exists hd'. split; [reflexivity|].
  destruct (Header_accessors_involutive Examples.header hd') as (Ht & _ & _).
  - repeat split; vm_compute; (reflexivity || discriminate).
  - apply Ht. reflexivity.
Defined.

End HeaderFacts.

Section EventCountFacts.
Import TPC.

(** In a strictly ascending sequence of numbers the last is at least the
    first plus the number of steps. *)
Lemma ascending_span {V : Type} (m : list (Z * V)) (x e : Z * V) :
  map_ok Z.ltb (x :: m) → last (x :: m) = Some e →
  x.1 + Z.of_nat (length m) ≤ e.1.
Proof.
  revert x. induction m as [|y m IH]; intros x Hsorted Hlast.
  - simpl in *. simplify_eq. lia.
  - apply StronglySorted_inv in Hsorted as [Htail Hx].
    apply Forall_cons in Hx as [Hxy%Z.ltb_lt _].
    change (last (y :: m) = Some e) in Hlast.
    specialize (IH y Htail Hlast). simpl length. lia.
Qed.

(** ... with equality exactly when there are no gaps. *)
Lemma ascending_contiguous {V : Type} (m : list (Z * V)) (x e : Z * V) :
  map_ok Z.ltb (x :: m) → last (x :: m) = Some e →
  e.1 = x.1 + Z.of_nat (length m) ↔ contiguous (x :: m).*1.
Proof.
  revert x. induction m as [|y m IH]; intros x Hsorted Hlast.
  - simpl in *. simplify_eq. split; [|lia].
    intros _ i a b _ Hb. done.
  - apply StronglySorted_inv in Hsorted as [Htail Hx].
    apply Forall_cons in Hx as [Hxy%Z.ltb_lt _].
    change (last (y :: m) = Some e) in Hlast.
    pose proof (ascending_span m y e Htail Hlast) as Hspan.
    specialize (IH y Htail Hlast). simpl length. split.
    + intros He. assert (y.1 = x.1 + 1) as Hy by lia.
      assert (contiguous (y :: m).*1) as Hc by (apply IH; lia).
      intros [|i] a b Ha Hb.
      * simpl in Ha, Hb. simplify_eq. done.
      * by apply (Hc i).
    + intros Hc. pose proof (Hc 0%nat x.1 y.1 eq_refl eq_refl) as Hy.
      assert (e.1 = y.1 + Z.of_nat (length m)) as He.
      { apply IH. intros i a b Ha Hb. by apply (Hc (S i)). }
      lia.
Qed.

Lemma to_int_small (n : nat) : Z.of_nat n ≤ int_max → to_int (Z.of_nat n) = Z.of_nat n.
Proof.
  unfold int_max, to_int. intros Hn. rewrite Z.mod_small; lia.
Qed.

(** X4: on an ascending, non-empty event index of at most [INT_MAX]
    entries, [getNumberOfEvents] is at least 1 and at most
    [getLastEvent - getFirstEvent + 1], the difference taken over the
    integers (no wrap-around). *)
Theorem getNumberOfEvents_within_span {PadPos} (r : RawReader PadPos) :
  mEvents r ≠ [] → map_ok Z.ltb (mEvents r) →
  Z.of_nat (length (mEvents r)) ≤ int_max →
  ∃ lo hi, getFirstEvent r = Some lo ∧ getLastEvent r = Some hi ∧
           1 ≤ getNumberOfEvents r ≤ hi - lo + 1.
Proof.
  unfold getFirstEvent, getLastEvent, getNumberOfEvents,
    deref, deref_rbegin, map_begin, map_size.
  destruct (mEvents r) as [|x m] eqn:Hm; [done|]. intros _ Hsorted Hsize.
  destruct (last (x :: m)) as [e|] eqn:Hlast.
  2:{ by apply last_None in Hlast. }
  exists x.1, e.1. rewrite decide_False by done.
  rewrite to_int_small by done.
  pose proof (ascending_span m x e Hsorted Hlast). simpl length in *.
  split_and!; try done; lia.
Qed.

Lemma getNumberOfEvents_within_span_witness :
  ∃ lo hi, TPC.getFirstEvent Examples.loaded = Some lo ∧
           TPC.getLastEvent Examples.loaded = Some hi ∧
           1 ≤ TPC.getNumberOfEvents Examples.loaded ≤ hi - lo + 1.
Proof.
  apply (getNumberOfEvents_within_span Examples.loaded).
  - discriminate.
  - repeat constructor.
  - vm_compute. discriminate.
Defined.

(** X5: on such an index [getNumberOfEvents] equals
    [getLastEvent - getFirstEvent + 1] exactly when the stored event
    numbers are contiguous. *)
Theorem getNumberOfEvents_contiguous {PadPos} (r : RawReader PadPos) :
  mEvents r ≠ [] → map_ok Z.ltb (mEvents r) →
  Z.of_nat (length (mEvents r)) ≤ int_max →
  ∃ lo hi, getFirstEvent r = Some lo ∧ getLastEvent r = Some hi ∧
           (getNumberOfEvents r = hi - lo + 1 ↔ contiguous (mEvents r).*1).
Proof.
  unfold getFirstEvent, getLastEvent, getNumberOfEvents,
    deref, deref_rbegin, map_begin, map_size.
  destruct (mEvents r) as [|x m] eqn:Hm; [done|]. intros _ Hsorted Hsize.
  destruct (last (x :: m)) as [e|] eqn:Hlast.
  2:{ by apply last_None in Hlast. }
  exists x.1, e.1. rewrite decide_False by done.
  rewrite to_int_small by done.
  pose proof (ascending_contiguous m x e Hsorted Hlast) as Hiff.
  simpl length in *. split_and!; try done.
  rewrite <- Hiff. lia.
Qed.

(** Events 2, 3, 4 are three events; events 2, 3, 5 are three events over a
    span of four. *)
Lemma getNumberOfEvents_contiguous_witness :
  TPC.getNumberOfEvents Examples.gapless = 4 - 2 + 1 ∧
  TPC.getNumberOfEvents Examples.loaded ≠ 5 - 2 + 1.
Proof.
  split.
  - destruct (getNumberOfEvents_contiguous Examples.gapless)
      as (lo & hi & Hlo & Hhi & Hiff).
    + discriminate.
    + repeat constructor.
    + vm_compute. discriminate.
    + injection Hlo as <-. injection Hhi as <-. apply Hiff.
      intros [|[|[|i]]] a b Ha Hb; simpl in Ha, Hb; simplify_eq; reflexivity.
  - vm_compute. discriminate.
Defined.

(** On the reader that indexed events 2, 3 and 5 the first event is 2 and
    the last is 5. *)
Lemma getFirstEvent_getLastEvent_nonempty_witness :
  ∃ lo hi, TPC.getFirstEvent Examples.loaded = Some lo ∧
           TPC.getLastEvent Examples.loaded = Some hi ∧
           lo ∈ (TPC.mEvents Examples.loaded).*1 ∧
           hi ∈ (TPC.mEvents Examples.loaded).*1 ∧
           ∀ k, k ∈ (TPC.mEvents Examples.loaded).*1 → lo ≤ k ≤ hi.
Proof.
  apply (getFirstEvent_getLastEvent_nonempty Examples.loaded).
  - discriminate.
  - repeat constructor.
Defined.

End EventCountFacts.

Section PadDataFacts.
Import TPC.
Context {PadPos : Type} (PadPos_less : PadPos → PadPos → bool).

Lemma set_mDataIterator_twice (i j : nat) (r : RawReader PadPos) :
  set_mDataIterator i (set_mDataIterator j r) = set_mDataIterator i r.
Proof. reflexivity. Qed.

Lemma set_mDataIterator_same (r : RawReader PadPos) :
  set_mDataIterator (mDataIterator r) r = r.
Proof. by destruct r. Qed.

(** [find] never returns a position past [end()]. *)
Lemma map_find_bound {K V : Type} (less : K → K → bool) (m : stdmap (K:=K) (V:=V))
    (k : K) :
  (map_find less m k ≤ map_end m)%nat.
Proof.
  unfold map_find, map_end.
  destruct (list_find _ m) as [[i e]|] eqn:Hfind; [|done].
  apply list_find_Some in Hfind as (Hi%lookup_lt_Some & _). lia.
Qed.

(** X6: [getData] is defined on every reader, whatever the iterator was.
    It leaves the iterator at a position of the data map or at its end,
    changes no other member of the reader, and changes no vector that
    existed before the call. *)
Theorem getData_defined_frame (padPos : PadPos) (r : RawReader PadPos)
    (h : VecHeap) :
  ∃ p r' h',
    getData PadPos_less padPos r h = Some (p, r', h') ∧
    iterator_ok r' ∧
    mLastEvent r' = mLastEvent r ∧
    mTimestampOfFirstData r' = mTimestampOfFirstData r ∧
    mEvents r' = mEvents r ∧
    mData r' = mData r ∧
    mSyncPos r' = mSyncPos r ∧
    ∀ l v, h !! l = Some v → h' !! l = Some v.
Proof.
  unfold getData, iterator_ok.
  pose proof (map_find_bound PadPos_less (mData r) padPos) as Hbound.
  destruct (decide (map_find PadPos_less (mData r) padPos = map_end (mData r)))
    as [Hend|Hfound].
  - eexists _, _, _. split_and!; try done.
    intros l v Hl. rewrite lookup_insert_ne; [done|].
    intros <-. apply (is_fresh (dom h)). by apply elem_of_dom.
  - destruct (map_find_found PadPos_less (mData r) padPos Hfound)
      as (e & He & _).
    rewrite He. eexists _, _, _. split_and!; done.
Qed.

(** X7: a [getNextData] that follows a [getData] returns the entry that
    [getData] found -- the same pointer, with [padPos] set to the stored
    key -- and steps the iterator past it; after a [getData] for a position
    that is not stored it returns null and leaves its [padPos] argument. *)
Theorem getData_then_getNextData (padPos other : PadPos) (r : RawReader PadPos)
    (h : VecHeap) :
  ∃ p r' h',
    getData PadPos_less padPos r h = Some (p, r', h') ∧
    ((∃ e, e ∈ mData r ∧ equivalent PadPos_less e.1 padPos = true) →
     ∃ k r'', getNextData other r' = Some (p, k, r'') ∧
              equivalent PadPos_less k padPos = true ∧
              (k, p) ∈ mData r ∧
              mDataIterator r'' = S (mDataIterator r')) ∧
    ((∀ e, e ∈ mData r → equivalent PadPos_less e.1 padPos = false) →
     getNextData other r' = Some (None, other, r')).
Proof.
  unfold getData.
  destruct (decide (map_find PadPos_less (mData r) padPos = map_end (mData r)))
    as [Hend|Hfound].
  - eexists _, _, _. split_and!; [done|..].
    + intros (e & He & Heq).
      pose proof (proj1 (map_find_end PadPos_less (mData r) padPos) Hend e He).
      congruence.
    + intros _. unfold getNextData. simpl. by rewrite decide_True.
  - destruct (map_find_found PadPos_less (mData r) padPos Hfound)
      as (e & He & Heq).
    rewrite He. eexists _, _, _. split_and!; [done|..].
    + intros _. exists e.1, (set_mDataIterator
        (S (map_find PadPos_less (mData r) padPos)) r).
      unfold getNextData. simpl. rewrite decide_False by done. rewrite He.
      split_and!; try done.
      destruct e. by eapply list_elem_of_lookup_2.
    + intros Hnone.
      assert (e ∈ mData r) as Hin by (by eapply list_elem_of_lookup_2).
      rewrite (Hnone _ Hin) in Heq. done.
Qed.

End PadDataFacts.

Lemma getData_then_getNextData_witness :
  let hit := TPC.getData Examples.PadPos_less
               {| Examples.row := 0; Examples.pad := 1 |}
               (TPC.set_mDataIterator 7 Examples.loaded) Examples.adc in
  let miss := TPC.getData Examples.PadPos_less
                {| Examples.row := 9; Examples.pad := 9 |}
                Examples.loaded Examples.adc in
  (∃ r' h' k r'',
     hit = Some (Some 2%positive, r', h') ∧
     TPC.getNextData {| Examples.row := 5; Examples.pad := 5 |} r'
     = Some (Some 2%positive, k, r'')) ∧
  (∃ p r' h',
     miss = Some (p, r', h') ∧
     TPC.getNextData {| Examples.row := 5; Examples.pad := 5 |} r'
     = Some (None, {| Examples.row := 5; Examples.pad := 5 |}, r')).
Proof.
  split.
  - destruct (getData_then_getNextData Examples.PadPos_less
                {| Examples.row := 0; Examples.pad := 1 |}
                {| Examples.row := 5; Examples.pad := 5 |}
                (TPC.set_mDataIterator 7 Examples.loaded) Examples.adc)
      as (p & r' & h' & Hget & Hhit & _).
    destruct Hhit as (k & r'' & Hnext & _).
    + exists ({| Examples.row := 0; Examples.pad := 1 |}, Some 2%positive).
      split; [right; left | reflexivity].
    + exists r', h', k, r''. vm_compute in Hget.
      injection Hget as <- <- <-. split; [reflexivity | exact Hnext].
  - destruct (getData_then_getNextData Examples.PadPos_less
                {| Examples.row := 9; Examples.pad := 9 |}
                {| Examples.row := 5; Examples.pad := 5 |}
                Examples.loaded Examples.adc)
      as (p & r' & h' & Hget & _ & Hmiss).
    exists p, r', h'. split; [exact Hget|]. apply Hmiss.
    intros e He. apply list_elem_of_In in He. simpl in He.
    destruct He as [<-|[<-|[]]]; reflexivity.
Defined.

Section PadDataRepeatFacts.
Import TPC.
Context {PadPos : Type} (PadPos_less : PadPos → PadPos → bool).

(** X8: two [getData] calls for a position that is not stored return two
    different pointers, neither of which existed before; both point to an
    empty vector, and the second call leaves the reader as the first left
    it.  A caller that fills the vector it got does not change what another
    caller got. *)
Theorem getData_absent_twice (padPos : PadPos) (r : RawReader PadPos)
    (h : VecHeap) :
  (∀ e, e ∈ mData r → equivalent PadPos_less e.1 padPos = false) →
  ∃ l1 r1 h1 l2 h2,
    getData PadPos_less padPos r h = Some (Some l1, r1, h1) ∧
    getData PadPos_less padPos r1 h1 = Some (Some l2, r1, h2) ∧
    l1 ≠ l2 ∧ (l1 ∉ dom h) ∧ (l2 ∉ dom h) ∧
    h2 !! l1 = Some [] ∧ h2 !! l2 = Some [].
Proof.
  intros Hnone.
  pose proof (proj2 (map_find_end PadPos_less (mData r) padPos) Hnone) as Hend.
  unfold getData. simpl. rewrite !decide_True by done.
  set (l1 := fresh (dom h)).
  set (h1 := <[l1 := []]> h).
  set (l2 := fresh (dom h1)).
  assert (l1 ∉ dom h) as Hl1 by apply is_fresh.
  assert (l2 ∉ dom h1) as Hl2 by apply is_fresh.
  assert (l1 ≠ l2) as Hne.
  { intros Heq. apply Hl2. rewrite <- Heq. subst h1.
    rewrite dom_insert_L. set_solver. }
  exists l1, (set_mDataIterator (map_end (mData r)) r), h1, l2, (<[l2 := []]> h1).
  rewrite Hend. split_and!; try done.
  - cbn [mData set_mDataIterator]. rewrite Hend.
    by rewrite decide_True.
  - intros Hin. apply Hl2. subst h1. rewrite dom_insert_L. set_solver.
  - rewrite lookup_insert_ne by done. subst h1. apply lookup_insert_eq.
  - apply lookup_insert_eq.
Qed.

(** X9: a [getData] call for a stored position, repeated, returns the same
    pointer again and changes neither the reader nor the heap: callers of
    [getData] for one stored position share one vector, the reader's own. *)
Theorem getData_stored_twice (padPos : PadPos) (r : RawReader PadPos)
    (h : VecHeap) :
  (∃ e, e ∈ mData r ∧ equivalent PadPos_less e.1 padPos = true) →
  ∃ p r1,
    getData PadPos_less padPos r h = Some (p, r1, h) ∧
    getData PadPos_less padPos r1 h = Some (p, r1, h) ∧
    ∃ k, (k, p) ∈ mData r ∧ equivalent PadPos_less k padPos = true.
Proof.
  intros (e0 & Hin0 & Heq0).
  assert (map_find PadPos_less (mData r) padPos ≠ map_end (mData r)) as Hfound.
  { intros Hend.
    pose proof (proj1 (map_find_end PadPos_less (mData r) padPos) Hend e0 Hin0).
    congruence. }
  destruct (map_find_found PadPos_less (mData r) padPos Hfound)
    as (e & He & Heq).
  unfold getData.
  exists (snd e), (set_mDataIterator (map_find PadPos_less (mData r) padPos) r).
  cbn [mData set_mDataIterator].
  rewrite !decide_False by done. rewrite He. split_and!; try done.
  exists (fst e). split; [|done]. destruct e. by eapply list_elem_of_lookup_2.
Qed.

End PadDataRepeatFacts.

Lemma getData_absent_twice_witness :
  ∃ l1 r1 h1 l2 h2,
    TPC.getData Examples.PadPos_less {| Examples.row := 9; Examples.pad := 9 |}
      Examples.loaded Examples.adc = Some (Some l1, r1, h1) ∧
    TPC.getData Examples.PadPos_less {| Examples.row := 9; Examples.pad := 9 |}
      r1 h1 = Some (Some l2, r1, h2) ∧
    l1 ≠ l2 ∧ (l1 ∉ dom Examples.adc) ∧ (l2 ∉ dom Examples.adc) ∧
    h2 !! l1 = Some [] ∧ h2 !! l2 = Some [].
Proof.
  apply (getData_absent_twice Examples.PadPos_less
           {| Examples.row := 9; Examples.pad := 9 |} Examples.loaded Examples.adc).
  intros e He. apply list_elem_of_In in He. simpl in He.
  destruct He as [<-|[<-|[]]]; reflexivity.
Defined.

Lemma getData_stored_twice_witness :
  ∃ p r1,
    TPC.getData Examples.PadPos_less {| Examples.row := 0; Examples.pad := 0 |}
      Examples.loaded Examples.adc = Some (p, r1, Examples.adc) ∧
    TPC.getData Examples.PadPos_less {| Examples.row := 0; Examples.pad := 0 |}
      r1 Examples.adc = Some (p, r1, Examples.adc) ∧
    ∃ k, (k, p) ∈ TPC.mData Examples.loaded ∧
         TPC.equivalent Examples.PadPos_less k
           {| Examples.row := 0; Examples.pad := 0 |} = true.
Proof.
  apply (getData_stored_twice Examples.PadPos_less
           {| Examples.row := 0; Examples.pad := 0 |} Examples.loaded Examples.adc).
  exists ({| Examples.row := 0; Examples.pad := 0 |}, Some 1%positive).
  split; [left | reflexivity].
Defined.

Section TraversalFacts.
Import TPC.
Context {PadPos : Type}.

(** X10: [getNextData] has a defined result exactly when the iterator is a
    position of the data map or its end; it then changes no member but the
    iterator, which stays such a position.  On an iterator past the end the
    call dereferences it. *)
Theorem getNextData_defined_iff (padPos : PadPos) (r : RawReader PadPos) :
  (is_Some (getNextData padPos r) ↔ iterator_ok r) ∧
  ∀ p padPos' r',
    getNextData padPos r = Some (p, padPos', r') →
    iterator_ok r' ∧
    mLastEvent r' = mLastEvent r ∧
    mTimestampOfFirstData r' = mTimestampOfFirstData r ∧
    mEvents r' = mEvents r ∧
    mData r' = mData r ∧
    mSyncPos r' = mSyncPos r.
Proof.
  unfold getNextData, iterator_ok, map_end. split.
  - destruct (decide (mDataIterator r = length (mData r))) as [Hend|Hmore].
    + split; [lia | by eexists].
    + destruct (deref (mData r) (mDataIterator r)) as [e|] eqn:He;
        unfold deref in He; simpl.
      * apply lookup_lt_Some in He. split; [lia | by eexists].
      * apply lookup_ge_None in He. split; [by intros [? ?] | lia].
  - intros p padPos' r'.
    destruct (decide (mDataIterator r = length (mData r))) as [Hend|Hmore].
    + intros [= <- <- <-]. split_and!; try done; lia.
    + destruct (deref (mData r) (mDataIterator r)) as [e|] eqn:He;
        unfold deref in He; simpl; [|done].
      intros [= <- <- <-]. apply lookup_lt_Some in He. simpl.
      split_and!; try done; lia.
Qed.

End TraversalFacts.

Lemma getNextData_defined_iff_witness :
  is_Some (TPC.getNextData {| Examples.row := 0; Examples.pad := 0 |}
             (TPC.set_mDataIterator 2 Examples.loaded)) ∧
  TPC.getNextData {| Examples.row := 0; Examples.pad := 0 |}
    (TPC.set_mDataIterator 3 Examples.loaded) = None.
Proof.
  split.
  - apply (getNextData_defined_iff {| Examples.row := 0; Examples.pad := 0 |}
             (TPC.set_mDataIterator 2 Examples.loaded)).
    unfold TPC.iterator_ok. simpl. lia.
  - reflexivity.
Defined.

Section LoopFacts.
Import TPC.
Context {PadPos : Type}.

(** With [n] entries left and more than [n] iterations allowed, the loop
    ends after visiting those entries. *)
Lemma data_loop_run (n : nat) :
  ∀ (r : RawReader PadPos) (padPos : PadPos) (fuel : nat),
    (∀ e, e ∈ mData r → e.2 ≠ None) →
    (mDataIterator r + n = length (mData r))%nat →
    (n < fuel)%nat →
    ∃ seen padPos',
      data_loop fuel padPos r
      = Some (seen, padPos', set_mDataIterator (map_end (mData r)) r) ∧
      as_entries seen = drop (mDataIterator r) (mData r) ∧
      padPos' = default padPos (last seen.*1).
Proof.
  induction n as [|n IH]; intros r padPos fuel Hnonnull Hleft Hfuel;
    (destruct fuel as [|fuel]; [lia|]); simpl; unfold getNextData, map_end.
  - rewrite decide_True by lia. simpl. exists [], padPos.
    rewrite (drop_ge (mData r)) by lia.
    replace (length (mData r)) with (mDataIterator r) by lia.
    by rewrite set_mDataIterator_same.
  - rewrite decide_False by lia.
    destruct (lookup_lt_is_Some_2 (mData r) (mDataIterator r)) as [e He];
      [lia|].
    assert (e ∈ mData r) as Hin by (by eapply list_elem_of_lookup_2).
    pose proof (drop_S _ _ _ He) as Hdrop.
    change (deref (mData r) (mDataIterator r) = Some e) in He.
    rewrite He. simpl. destruct e as [k [l|]]; [|by destruct (Hnonnull _ Hin)].
    simpl.
    destruct (IH (set_mDataIterator (S (mDataIterator r)) r) k fuel)
      as (seen & padPos' & Hloop & Hseen & Hpos); [done|simpl; lia|lia|].
    rewrite Hloop. simpl. exists ((k, l) :: seen), padPos'.
    split_and!; [done| |].
    + cbn [mData mDataIterator set_mDataIterator] in Hseen.
      rewrite Hdrop, <- Hseen. reflexivity.
    + rewrite Hpos, fmap_cons, last_cons. by destruct (last seen.*1).
Qed.

(** X11: on a reader whose data map stores no null pointer, the loop
    [while (data = rr.getNextData(padPos))] started with the iterator at a
    position of the data map ends, given more iterations than entries are
    left.  Its body sees exactly the entries from the iterator's position
    to the end of the map, each once and in the map's order; afterwards the
    iterator is at the end and [padPos] holds the key of the last entry
    seen (its old value if there was none). *)
Theorem data_loop_visits_rest (r : RawReader PadPos) (padPos : PadPos)
    (fuel : nat) :
  (∀ e, e ∈ mData r → e.2 ≠ None) →
  iterator_ok r →
  (length (mData r) - mDataIterator r < fuel)%nat →
  ∃ seen padPos',
    data_loop fuel padPos r
    = Some (seen, padPos', set_mDataIterator (map_end (mData r)) r) ∧
    as_entries seen = drop (mDataIterator r) (mData r) ∧
    length seen = (length (mData r) - mDataIterator r)%nat ∧
    padPos' = default padPos (last seen.*1).
Proof.
  unfold iterator_ok, map_end. intros Hnonnull Hit Hfuel.
  destruct (data_loop_run (length (mData r) - mDataIterator r)
              r padPos fuel) as (seen & padPos' & Hloop & Hseen & Hpos);
    [done|lia|done|].
  exists seen, padPos'. split_and!; try done.
  apply (f_equal length) in Hseen.
  unfold as_entries in Hseen. by rewrite length_fmap, length_drop in Hseen.
Qed.

(** X12: when moreover the data map is in ascending key order, the keys the
    loop hands to its body are in ascending order -- no position is handed
    out twice -- and a [getNextData] after the loop returns null, leaving
    [padPos] and the reader as they are. *)
Theorem data_loop_ascending (PadPos_less : PadPos → PadPos → bool)
    (r : RawReader PadPos) (padPos : PadPos) (fuel : nat) :
  map_ok PadPos_less (mData r) →
  (∀ e, e ∈ mData r → e.2 ≠ None) →
  iterator_ok r →
  (length (mData r) - mDataIterator r < fuel)%nat →
  ∃ seen padPos' r',
    data_loop fuel padPos r = Some (seen, padPos', r') ∧
    StronglySorted (λ a b, PadPos_less a b = true) seen.*1 ∧
    getNextData padPos' r' = Some (None, padPos', r').
Proof.
  unfold iterator_ok, map_end. intros Hsorted Hnonnull Hit Hfuel.
  destruct (data_loop_run (length (mData r) - mDataIterator r)
              r padPos fuel) as (seen & padPos' & Hloop & Hseen & Hpos);
    [done|lia|done|].
  exists seen, padPos', (set_mDataIterator (map_end (mData r)) r).
  split_and!; [done| |].
  - assert (seen.*1 = (drop (mDataIterator r) (mData r)).*1) as ->.
    { rewrite <- Hseen. unfold as_entries.
      rewrite <- list_fmap_compose. done. }
    apply (StronglySorted_fmap fst (λ a b, PadPos_less a.1 b.1 = true));
      [done|].
    unfold map_ok in Hsorted.
    rewrite <- (take_drop (mDataIterator r) (mData r)) in Hsorted.
    by apply StronglySorted_app_1_r in Hsorted.
  - unfold getNextData, map_end. simpl. by rewrite decide_True.
Qed.

End LoopFacts.

(** From the second entry of the loaded reader the loop sees that entry
    only. *)
Lemma data_loop_visits_rest_witness :
  TPC.data_loop 5 {| Examples.row := 0; Examples.pad := 0 |}
    (TPC.set_mDataIterator 1 Examples.loaded)
  = Some ([({| Examples.row := 0; Examples.pad := 1 |}, 2%positive)],
          {| Examples.row := 0; Examples.pad := 1 |},
          TPC.set_mDataIterator 2 Examples.loaded).
Proof.
  destruct (data_loop_visits_rest (TPC.set_mDataIterator 1 Examples.loaded)
              {| Examples.row := 0; Examples.pad := 0 |} 5)
    as (seen & padPos' & Hloop & _).
  - apply Forall_forall. repeat constructor; done.
  - unfold TPC.iterator_ok. simpl. lia.
  - simpl. lia.
  - rewrite Hloop. vm_compute in Hloop. injection Hloop as <- <-. reflexivity.
Defined.

(** From the start of the loaded reader the loop sees pad 0 and then pad 1
    of row 0. *)
Lemma data_loop_ascending_witness :
  ∃ seen padPos' r',
    TPC.data_loop 3 {| Examples.row := 7; Examples.pad := 7 |} Examples.loaded
    = Some (seen, padPos', r') ∧
    StronglySorted (λ a b, Examples.PadPos_less a b = true) seen.*1 ∧
    TPC.getNextData padPos' r' = Some (None, padPos', r').
Proof.
  apply (data_loop_ascending Examples.PadPos_less Examples.loaded
           {| Examples.row := 7; Examples.pad := 7 |} 3).
  - repeat constructor.
  - apply Forall_forall. repeat constructor; done.
  - unfold TPC.iterator_ok. simpl. lia.
  - simpl. lia.
Defined.

Section PositionedLoopFacts.
Import TPC.
Context {PadPos : Type} (PadPos_less : PadPos → PadPos → bool).

(** X13: [getData] positions the traversal.  On a reader whose data map
    stores no null pointer, the loop run after [getData(padPos)] first
    hands out the entry [getData] returned and then every later entry of
    the map; after a [getData] for a position that is not stored the loop
    ends at once, with its [padPos] untouched. *)
Theorem getData_then_data_loop (padPos other : PadPos) (r : RawReader PadPos)
    (h : VecHeap) (fuel : nat) :
  (∀ e, e ∈ mData r → e.2 ≠ None) →
  (length (mData r) < fuel)%nat →
  ∃ p r' h' seen padPos',
    getData PadPos_less padPos r h = Some (p, r', h') ∧
    data_loop fuel other r'
    = Some (seen, padPos', set_mDataIterator (map_end (mData r)) r) ∧
    as_entries seen = drop (map_find PadPos_less (mData r) padPos) (mData r) ∧
    ((∃ e, e ∈ mData r ∧ equivalent PadPos_less e.1 padPos = true) →
     ∃ k l rest, seen = (k, l) :: rest ∧ p = Some l ∧
                 equivalent PadPos_less k padPos = true) ∧
    ((∀ e, e ∈ mData r → equivalent PadPos_less e.1 padPos = false) →
     seen = [] ∧ padPos' = other).
Proof.
  intros Hnonnull Hfuel.
  pose proof (map_find_bound PadPos_less (mData r) padPos) as Hbound.
  unfold map_end in Hbound.
  set (i := map_find PadPos_less (mData r) padPos) in *.
  destruct (data_loop_run (length (mData r) - i) (set_mDataIterator i r)
              other fuel) as (seen & padPos' & Hloop & Hseen & Hpos);
    [done|simpl; lia|lia|].
  cbn [mData mDataIterator set_mDataIterator] in Hloop, Hseen.
  rewrite set_mDataIterator_twice in Hloop.
  unfold getData. fold i.
  destruct (decide (i = map_end (mData r))) as [Hend|Hfound].
  - eexists _, _, _, seen, padPos'. split_and!; [done|done|done|..].
    + intros (e & He & Heq).
      pose proof (proj1 (map_find_end PadPos_less (mData r) padPos) Hend e He).
      congruence.
    + intros _. rewrite Hend in Hseen. unfold map_end in Hseen.
      rewrite drop_all in Hseen. apply fmap_nil_inv in Hseen. subst seen.
      done.
  - destruct (map_find_found PadPos_less (mData r) padPos Hfound)
      as (e & He & Heq).
    fold i in He. rewrite He.
    eexists _, _, _, seen, padPos'. split_and!; [done|done|done|..].
    + intros _. unfold deref in He. rewrite (drop_S _ _ _ He) in Hseen.
      destruct seen as [|[k l] rest]; [done|].
      unfold as_entries in Hseen. rewrite fmap_cons in Hseen.
      injection Hseen as <- _. by exists k, l, rest.
    + intros Hnone.
      assert (e ∈ mData r) as Hin by (by eapply list_elem_of_lookup_2).
      rewrite (Hnone _ Hin) in Heq. done.
Qed.

End PositionedLoopFacts.

(** After [getData] for pad 1 of row 0, the second of the two stored pads,
    the loop hands out that pad and ends. *)
Lemma getData_then_data_loop_witness :
  ∃ p r' h' seen padPos',
    TPC.getData Examples.PadPos_less {| Examples.row := 0; Examples.pad := 1 |}
      Examples.loaded Examples.adc = Some (p, r', h') ∧
    TPC.data_loop 3 {| Examples.row := 7; Examples.pad := 7 |} r'
    = Some (seen, padPos', TPC.set_mDataIterator 2 Examples.loaded) ∧
    seen = [({| Examples.row := 0; Examples.pad := 1 |}, 2%positive)] ∧
    p = Some 2%positive.
Proof.
  destruct (getData_then_data_loop Examples.PadPos_less
              {| Examples.row := 0; Examples.pad := 1 |}
              {| Examples.row := 7; Examples.pad := 7 |}
              Examples.loaded Examples.adc 3)
    as (p & r' & h' & seen & padPos' & Hget & Hloop & Hseen & _).
  - apply Forall_forall. repeat constructor; done.
  - simpl. lia.
  - exists p, r', h', seen, padPos'. vm_compute in Hget.
    injection Hget as <- <- <-. vm_compute in Hloop.
    injection Hloop as <- <-. repeat split.
Defined.
